(** * gcswheel: scale markings of the gear / speed / cadence rotary slide rule

    A shallow embedding of [calculate] from [gcswheel.py] and the proofs of
    the properties its specification states about it, followed by the
    drawing functions ([place_text], [scalemark], [coverbox], [drawpage],
    [output_layers], [mm2pt]) and the program, with what they do to the
    cairo context.

    Python floats are read as real numbers: [math.log] is [ln], [math.pi]
    is [PI], and the float operators are the field operations of [R].
    What Python raises is kept: [math.log] of a non-positive number, a
    division by zero, an index out of range, arithmetic on [None] and a
    missing dictionary key are results [Raise _] of the model. *)

From Equations Require Import Equations.
From Stdlib Require Import ZArith List String Reals Lra Lia.
From Stdlib Require Import Ascii DecimalString Permutation.
Import ListNotations.

Open Scope R_scope.

(** ** Module level names of gcswheel.py *)

Record globals : Type := Globals {
  TYRE_C : R;          (* rollout of a 700x20c wheel and tyre, in metres *)
  FILEPFX : string     (* output filename prefix *)
}.

Definition module_globals : globals :=
  {| TYRE_C := 2.090; FILEPFX := "gcswheel" |}.

(** ** Exceptions, and the monad of a function body

    A body runs from the module's globals, and either raises or returns a
    value together with the globals it leaves behind. *)

Inductive exn : Type :=
| ValueError
| ZeroDivisionError
| IndexError
| TypeError
| KeyError.

Inductive result (A : Type) : Type :=
| Ok (a : A)
| Raise (e : exn).
Arguments Ok {A} a.
Arguments Raise {A} e.

Definition M (A : Type) : Type := globals -> result (A * globals).

Definition ret {A} (a : A) : M A := fun g => Ok (a, g).

Definition raise {A} (e : exn) : M A := fun _ => Raise e.

Definition bind {A B} (m : M A) (k : A -> M B) : M B :=
  fun g => match m g with
           | Ok (a, g1) => k a g1
           | Raise e => Raise e
           end.

Notation "x <- m ;; k" := (bind m (fun x => k))
  (at level 61, m at next level, right associativity).

Definition read_TYRE_C : M R := fun g => Ok (TYRE_C g, g).

(** ** The Python operations that can raise *)

(* math.log(x) *)
Definition py_log (x : R) : M R :=
  if Rlt_dec 0 x then ret (ln x) else raise ValueError.

(* x / y on floats *)
Definition py_div (x y : R) : M R :=
  if Req_dec_T y 0 then raise ZeroDivisionError else ret (x / y).

(* l[n] for n >= 0 *)
Definition py_index {A} (l : list A) (n : nat) : M A :=
  match nth_error l n with
  | Some a => ret a
  | None => raise IndexError
  end.

(* l[-1] *)
Definition py_last {A} (l : list A) : M A :=
  match rev l with
  | a :: _ => ret a
  | [] => raise IndexError
  end.

(* a slot that holds a float or None, used as an operand of float
   arithmetic *)
Definition as_float (v : option R) : M R :=
  match v with
  | Some x => ret x
  | None => raise TypeError
  end.

(* d[key] for a key that may not have been stored yet *)
Definition py_key (v : option R) : M R :=
  match v with
  | Some x => ret x
  | None => raise KeyError
  end.

(** ** Rows and the dictionary of scales

    A row is the five element list
    [[orig val, corrected val, logval, scaled log val, rot pos]];
    slots 1 and 3 may hold [None]. *)

Record row : Type := Row {
  orig : Z;
  corrected : option R;
  logval : R;
  scaled : option R;
  rot : R
}.

(* g[3] = v *)
Definition set_scaled (g : row) (v : R) : row :=
  Row (orig g) (corrected g) (logval g) (Some v) (rot g).

(* g[4] = v *)
Definition set_rot (g : row) (v : R) : row :=
  Row (orig g) (corrected g) (logval g) (scaled g) v.

Record data : Type := Data {
  gi : list row;            (* 'gi' : Gear Inches *)
  cr : list row;            (* 'cr' : Chainring Teeth *)
  cg : list row;            (* 'cg' : Cog teeth *)
  km : list row;            (* 'km' : Speed *)
  cd : list row;            (* 'cd' : Cadence *)
  refpt : option R;         (* 'refpt', absent until stored *)
  sprefpt : option R        (* 'sprefpt', absent until stored *)
}.

Definition set_gi (d : data) (l : list row) : data :=
  Data l (cr d) (cg d) (km d) (cd d) (refpt d) (sprefpt d).
Definition set_cr (d : data) (l : list row) : data :=
  Data (gi d) l (cg d) (km d) (cd d) (refpt d) (sprefpt d).
Definition set_cg (d : data) (l : list row) : data :=
  Data (gi d) (cr d) l (km d) (cd d) (refpt d) (sprefpt d).
Definition set_km (d : data) (l : list row) : data :=
  Data (gi d) (cr d) (cg d) l (cd d) (refpt d) (sprefpt d).
Definition set_cd (d : data) (l : list row) : data :=
  Data (gi d) (cr d) (cg d) (km d) l (refpt d) (sprefpt d).
Definition set_refpt (d : data) (v : R) : data :=
  Data (gi d) (cr d) (cg d) (km d) (cd d) (Some v) (sprefpt d).
Definition set_sprefpt (d : data) (v : R) : data :=
  Data (gi d) (cr d) (cg d) (km d) (cd d) (refpt d) (Some v).

(* data = {'gi': [], 'cr': [], 'cg': [], 'km': [], 'cd': []} *)
Definition empty_data : data := Data [] [] [] [] [] None None.

(** ** Loops *)

(* i = lo; while i <= hi: l.append(body(i)); i += 1 *)
Equations? while_le (body : Z -> M row) (i hi : Z) (l : list row)
  (g : globals) : result (list row * globals)
  by wf (Z.to_nat (hi + 1 - i)) lt :=
  while_le body i hi l g with Z_le_gt_dec i hi := {
    | right _ => Ok (l, g)
    | left _ with body i g := {
      | Raise e => Raise e
      | Ok (r, g1) => while_le body (i + 1) hi (l ++ [r]) g1 } }.
Proof. lia. Qed.

(* i = hi; while i >= lo: l.append(body(i)); i -= 1 *)
Equations? while_ge (body : Z -> M row) (i lo : Z) (l : list row)
  (g : globals) : result (list row * globals)
  by wf (Z.to_nat (i + 1 - lo)) lt :=
  while_ge body i lo l g with Z_ge_lt_dec i lo := {
    | right _ => Ok (l, g)
    | left _ with body i g := {
      | Raise e => Raise e
      | Ok (r, g1) => while_ge body (i - 1) lo (l ++ [r]) g1 } }.
Proof. lia. Qed.

(* for r in l: body(r), where the body assigns to slots of r *)
Fixpoint for_each (body : row -> M row) (l : list row) : M (list row) :=
  match l with
  | [] => ret []
  | r :: rest =>
      r1 <- body r ;;
      rest1 <- for_each body rest ;;
      ret (r1 :: rest1)
  end.

(** ** calculate *)

(* Gear Inches (converts to gear ratio) *)
Definition gi_row (i : Z) : M row :=
  let ng := i in
  let nf := IZR i / 27.0 in
  nlf <- py_log nf ;;
  let rad := 0.0 in
  ret (Row ng (Some nf) nlf (Some rad) 0.0).

(* Chainring Teeth *)
Definition cr_row (i : Z) : M row :=
  let nr := i in
  lnr <- py_log (IZR i) ;;
  ret (Row nr None lnr None 0.0).

(* Cog Teeth *)
Definition cg_row (i : Z) : M row :=
  let nc := i in
  lnc <- py_log (IZR i) ;;
  ret (Row nc None lnc None 0.0).

(* Speed in km/h converted to wheel speed in hertz *)
Definition km_row (i : Z) : M row :=
  let nk := i in
  tyre_c <- read_TYRE_C ;;
  kf <- py_div (IZR nk) (3.6 * tyre_c) ;;
  lkf <- py_log kf ;;
  ret (Row nk (Some kf) lkf None 0.0).

(* Cadence in rpm converted to hertz *)
Definition cd_row (i : Z) : M row :=
  let nd := i in
  let df := IZR nd / 60.0 in
  ldf <- py_log df ;;
  ret (Row nd (Some df) ldf None 0.0).

(* Use Gear inches to determine base axis scaling: the value of gimod *)
Definition base_scaling (d : data) : M R :=
  first <- py_index (gi d) 0 ;;
  let girawmin := logval first in
  final <- py_last (gi d) ;;
  let girawmax := logval final in
  let girangerad := 0.82 * PI in
  let girangeraw := girawmax - girawmin in
  py_div girangerad girangeraw.

(* rad = mod * r[2]; r[3] = rad *)
Definition scale_row (gimod : R) (g : row) : M row :=
  let rad := gimod * logval g in
  ret (set_scaled g rad).

(* if g[0] != 60: g[4] = g[3] - gimin *)
Definition zero_row (gimin : option R) (g : row) : M row :=
  if negb (orig g =? 60)%Z then
    a <- as_float (scaled g) ;;
    b <- as_float gimin ;;
    ret (set_rot g (a - b))
  else ret g.

(* rad = mod * r[2]; r[3] = rad; r[4] = rad - min *)
Definition place_row (gimod min : R) (r : row) : M row :=
  let rad := gimod * logval r in
  let r := set_scaled r rad in
  ret (set_rot r (rad - min)).

(* rad = gimod * d[2]; d[3] = rad; d[4] = rad + cadmin + data['sprefpt'] *)
Definition cadence_row (gimod cadmin : R) (sp : option R) (d : row) : M row :=
  let rad := gimod * logval d in
  let d := set_scaled d rad in
  s <- py_key sp ;;
  ret (set_rot d (rad + cadmin + s)).

Definition calculate : M data :=
  let data := empty_data in
  l <- while_le gi_row 68 112 (gi data) ;;
  let data := set_gi data l in
  l <- while_le cr_row 42 52 (cr data) ;;
  let data := set_cr data l in
  l <- while_ge cg_row 18 12 (cg data) ;;
  let data := set_cg data l in
  l <- while_le km_row 35 55 (km data) ;;
  let data := set_km data l in
  l <- while_le cd_row 80 150 (cd data) ;;
  let data := set_cd data l in
  (* Use Gear inches to determine base axis scaling *)
  gimod <- base_scaling data ;;
  (* then scale values and position at zero *)
  l <- for_each (scale_row gimod) (gi data) ;;
  let data := set_gi data l in
  first <- py_index (gi data) 0 ;;
  let gimin := scaled first in
  l <- for_each (zero_row gimin) (gi data) ;;
  let data := set_gi data l in
  (* CR is on same scale as GI but rotated counter-clockwise *)
  let crmin := 0.525 * PI in
  l <- for_each (place_row gimod crmin) (cr data) ;;
  let data := set_cr data l in
  (* COG is on inverted scale *)
  let cogoft := 5%nat in
  r <- py_index (cr data) cogoft ;;
  let data := set_refpt data (rot r) in
  a <- as_float gimin ;;
  r <- py_index (cr data) cogoft ;;
  b <- as_float (scaled r) ;;
  let cgmin := a - b in
  let cgmod := -1.0 * gimod in
  l <- for_each (place_row cgmod cgmin) (cg data) ;;
  let data := set_cg data l in
  (* Speed/cadence scales are referenced to log of gear ratio *)
  let gearoft := 3%nat in
  r <- py_index (cg data) gearoft ;;
  let data := set_sprefpt data (rot r) in
  let kmmin := -0.32 * PI in
  l <- for_each (place_row gimod kmmin) (km data) ;;
  let data := set_km data l in
  first <- py_index (gi data) 0 ;;
  s <- as_float (scaled first) ;;
  let cadmin := s - kmmin in
  l <- for_each (cadence_row gimod cadmin (sprefpt data)) (cd data) ;;
  let data := set_cd data l in
  ret data.

(** ** The integers a counting loop visits *)

(* lo, lo + 1, ..., hi *)
Definition zup (lo hi : Z) : list Z :=
  map (fun k => (lo + Z.of_nat k)%Z) (seq 0 (Z.to_nat (hi + 1 - lo))).

(* hi, hi - 1, ..., lo *)
Definition zdown (hi lo : Z) : list Z :=
  map (fun k => (hi - Z.of_nat k)%Z) (seq 0 (Z.to_nat (hi + 1 - lo))).

(** ** The values calculate gives its local variables, and the rows it
    leaves in each list *)

Definition girawmin : R := ln (68 / 27.0).
Definition girawmax : R := ln (112 / 27.0).
Definition girangerad : R := 0.82 * PI.
Definition girangeraw : R := girawmax - girawmin.
Definition gimod : R := girangerad / girangeraw.
Definition gimin : R := gimod * girawmin.
Definition crmin : R := 0.525 * PI.
Definition cgmin : R := gimin - gimod * ln 47.
Definition cgmod : R := -1.0 * gimod.
Definition kmmin : R := -0.32 * PI.
Definition cadmin : R := gimin - kmmin.

(* rows as the five building loops append them *)
Definition gi_built (i : Z) : row :=
  Row i (Some (IZR i / 27.0)) (ln (IZR i / 27.0)) (Some 0.0) 0.0.
Definition teeth_built (i : Z) : row :=
  Row i None (ln (IZR i)) None 0.0.
Definition km_built (tyre_c : R) (i : Z) : row :=
  Row i (Some (IZR i / (3.6 * tyre_c))) (ln (IZR i / (3.6 * tyre_c))) None 0.0.
Definition cd_built (i : Z) : row :=
  Row i (Some (IZR i / 60.0)) (ln (IZR i / 60.0)) None 0.0.

(* rows of 'gi' between its two loops *)
Definition gi_scaled (i : Z) : row :=
  set_scaled (gi_built i) (gimod * logval (gi_built i)).

(* rows as calculate returns them *)
Definition gi_mark (i : Z) : row :=
  set_rot (gi_scaled i) (gimod * logval (gi_built i) - gimin).
Definition cr_mark (i : Z) : row :=
  let rad := gimod * logval (teeth_built i) in
  set_rot (set_scaled (teeth_built i) rad) (rad - crmin).
Definition cg_mark (i : Z) : row :=
  let rad := cgmod * logval (teeth_built i) in
  set_rot (set_scaled (teeth_built i) rad) (rad - cgmin).
Definition km_mark (tyre_c : R) (i : Z) : row :=
  let rad := gimod * logval (km_built tyre_c i) in
  set_rot (set_scaled (km_built tyre_c i) rad) (rad - kmmin).
Definition cd_mark (i : Z) : row :=
  let rad := gimod * logval (cd_built i) in
  set_rot (set_scaled (cd_built i) rad) (rad + cadmin + rot (cg_mark 15)).

Definition scales (tyre_c : R) : data :=
  Data (map gi_mark (zup 68 112))
       (map cr_mark (zup 42 52))
       (map cg_mark (zdown 18 12))
       (map (km_mark tyre_c) (zup 35 55))
       (map cd_mark (zup 80 150))
       (Some (rot (cr_mark 47)))
       (Some (rot (cg_mark 15))).


(** ** The drawing surface

    A cairo context is read as the list of the calls made on it, in the
    order they were made; the calls themselves are taken not to raise.  What
    [text_extents] answers is left open: it may depend on the message and
    on every call made before. *)

Module cairo.

Inductive font_slant : Type :=
| FONT_SLANT_NORMAL | FONT_SLANT_ITALIC | FONT_SLANT_OBLIQUE.

Inductive font_weight : Type :=
| FONT_WEIGHT_NORMAL | FONT_WEIGHT_BOLD.

Inductive line_cap : Type :=
| LINE_CAP_BUTT | LINE_CAP_ROUND | LINE_CAP_SQUARE.

Inductive line_join : Type :=
| LINE_JOIN_MITER | LINE_JOIN_ROUND | LINE_JOIN_BEVEL.

Inductive op : Type :=
| save
| restore
| set_font_size (size : R)
| select_font_face (family : string) (slant : font_slant)
    (weight : font_weight)
| set_line_cap (cap : line_cap)
| set_line_join (join : line_join)
| set_source_rgb (red green blue : R)
| set_line_width (width : R)
| new_sub_path
| arc (xc yc radius angle1 angle2 : R)
| move_to (x y : R)
| line_to (x y : R)
| rectangle (x y width height : R)
| stroke
| show_text (msg : string)
| rotate (angle : R)
| translate (tx ty : R)
| scale (sx sy : R).

End cairo.

Definition context : Type := list cairo.op.

(* (x_bearing, y_bearing, width, height), the first four of the extents *)
Definition extents : Type := (R * R * R * R)%type.

(** A body that draws runs from the calls made so far; it leaves the calls
    made when it stops, and either returns or raises. *)
Definition Draw (A : Type) : Type := context -> context * result A.

Definition dret {A} (a : A) : Draw A := fun c => (c, Ok a).

Definition draise {A} (e : exn) : Draw A := fun c => (c, Raise e).

Definition dbind {A B} (m : Draw A) (k : A -> Draw B) : Draw B :=
  fun c => match m c with
           | (c1, Ok a) => k a c1
           | (c1, Raise e) => (c1, Raise e)
           end.

Notation "x <~ m ;; k" := (dbind m (fun x => k))
  (at level 61, m at next level, right associativity).
Notation "m ;;; k" := (dbind m (fun _ => k))
  (at level 61, right associativity).

(* c.method(args) *)
Definition call (o : cairo.op) : Draw unit := fun c => (c ++ [o], Ok tt).

(* l[n] for n >= 0 *)
Definition item {A} (l : list A) (n : nat) : Draw A :=
  match nth_error l n with
  | Some a => dret a
  | None => draise IndexError
  end.

(* l[-1] *)
Definition last_item {A} (l : list A) : Draw A :=
  match rev l with
  | a :: _ => dret a
  | [] => draise IndexError
  end.

(* data[key] for 'refpt' and 'sprefpt' *)
Definition key (v : option R) : Draw R :=
  match v with
  | Some x => dret x
  | None => draise KeyError
  end.

(* for r in l: body(r) *)
Fixpoint for_rows (body : row -> Draw unit) (l : list row) : Draw unit :=
  match l with
  | [] => dret tt
  | r :: rest => body r ;;; for_rows body rest
  end.

(* n in layers *)
Definition layer_in (n : Z) (layers : list Z) : bool :=
  existsb (Z.eqb n) layers.

(* '{0}'.format(n) for an int n *)
Definition format_int (n : Z) : string :=
  NilZero.string_of_int (Z.to_int n).

(* the one character string of a double quote *)
Definition inch_sign : string := String (ascii_of_nat 34) EmptyString.

(* if msg: *)
Definition nonempty (msg : string) : bool :=
  match msg with
  | EmptyString => false
  | String _ _ => true
  end.

Section Drawing.

(* c.text_extents(msg)[:4], given the calls made on c so far *)
Variable text_extents_on : context -> string -> extents.

Definition text_extents (msg : string) : Draw extents :=
  fun c => (c, Ok (text_extents_on c msg)).

(* Draw msg at x,y in the current transform c *)
Definition place_text (x y : R) (msg : string) : Draw unit :=
  if nonempty msg then
    call cairo.save ;;;
    call (cairo.set_font_size 0.02) ;;;
    e <~ text_extents msg ;;
    let '(x_bearing, y_bearing, width, height) := e in
    call (cairo.move_to x (0.3 * height)) ;;;
    call (cairo.show_text msg) ;;;
    call cairo.restore
  else dret tt.

(* Draw mark on a scale *)
Definition scalemark (a x1 x2 : R) (lbl : string) (right : bool)
  : Draw unit :=
  call cairo.save ;;;
  call (cairo.rotate a) ;;;
  call (cairo.move_to x1 0.0) ;;;
  call (cairo.line_to x2 0.0) ;;;
  call cairo.stroke ;;;
  (if right then place_text (x2 - 0.04) (-0.018) lbl
   else place_text (x2 + 0.01) (-0.018) lbl) ;;;
  call cairo.restore.

(* Draw a highlight box for the top layer *)
Definition coverbox (a x1 x2 : R) : Draw unit :=
  call cairo.save ;;;
  call (cairo.rotate a) ;;;
  call (cairo.rectangle x1 (-0.018) (x2 - x1) 0.036) ;;;
  call cairo.stroke ;;;
  call cairo.restore.

(** *** drawpage, one block for each commented part of its body *)

Definition page_style : Draw unit :=
  call (cairo.select_font_face "Nimbus Sans" cairo.FONT_SLANT_NORMAL
          cairo.FONT_WEIGHT_BOLD) ;;;
  call (cairo.set_line_cap cairo.LINE_CAP_ROUND) ;;;
  call (cairo.set_line_join cairo.LINE_JOIN_ROUND) ;;;
  call (cairo.set_source_rgb 0 0 0) ;;;
  call (cairo.set_line_width 0.001).

(* middle cut; bottom/top cut *)
Definition cuts (layers : list Z) : Draw unit :=
  (if layer_in 2 layers then
     call cairo.new_sub_path ;;;
     call (cairo.arc 0.0 0.0 0.393 0.0 (2.0 * PI))
   else dret tt) ;;;
  (if (layer_in 1 layers || layer_in 3 layers)%bool then
     call cairo.new_sub_path ;;;
     call (cairo.arc 0.0 0.0 0.49 0.0 (2.0 * PI))
   else dret tt).

(* centrepoint always drawn *)
Definition centrepoint : Draw unit :=
  call cairo.new_sub_path ;;;
  call (cairo.arc 0.0 0.0 0.01 0.0 (2.0 * PI)) ;;;
  call (cairo.move_to (-0.015) 0.0) ;;;
  call (cairo.line_to 0.015 0.0) ;;;
  call (cairo.move_to 0.0 (-0.015)) ;;;
  call (cairo.line_to 0.0 0.015) ;;;
  call cairo.stroke.

(* c.new_sub_path(); c.arc(0.0, 0.0, radius, l[0][4], l[-1][4]) *)
Definition scale_arc (radius : R) (l : list row) : Draw unit :=
  call cairo.new_sub_path ;;;
  first <~ item l 0 ;;
  final <~ last_item l ;;
  call (cairo.arc 0.0 0.0 radius (rot first) (rot final)).

(* main marker and GI scale marks *)
Definition gi_marks (layers : list Z) (d : data) : Draw unit :=
  if layer_in 3 layers then
    scale_arc 0.4 (gi d) ;;;
    call cairo.stroke ;;;
    for_rows
      (fun g =>
         if (orig g mod 2 =? 0)%Z then
           scalemark (rot g) 0.4 0.42
             (format_int (orig g) ++ inch_sign) false
         else scalemark (rot g) 0.4 0.41 "" false)
      (gi d)
  else dret tt.

(* Chainring marks *)
Definition cr_marks (layers : list Z) (d : data) : Draw unit :=
  if layer_in 3 layers then
    scale_arc 0.4 (cr d) ;;;
    call cairo.stroke ;;;
    for_rows
      (fun r => scalemark (rot r) 0.4 0.42 (format_int (orig r) ++ "t") false)
      (cr d)
  else dret tt.

(* Cog Marks *)
Definition cg_marks (layers : list Z) (d : data) : Draw unit :=
  if layer_in 2 layers then
    scale_arc 0.386 (cg d) ;;;
    call cairo.stroke ;;;
    a <~ key (refpt d) ;;
    scalemark a 0.386 0.36 "CR" true ;;;
    for_rows
      (fun g => scalemark (rot g) 0.386 0.36 (format_int (orig g) ++ "t") true)
      (cg d)
  else dret tt.

(* Speed, Cadence, Gear on top layer *)
Definition top_marks (layers : list Z) (d : data) : Draw unit :=
  if layer_in 1 layers then
    a <~ key (sprefpt d) ;;
    scalemark a 0.31 0.28 "GR" true ;;;
    a <~ key (sprefpt d) ;;
    coverbox a 0.31 0.48 ;;;
    scale_arc 0.386 (cd d) ;;;
    for_rows
      (fun r =>
         if (orig r mod 5 =? 0)%Z then
           scalemark (rot r) 0.386 0.36 (format_int (orig r)) true
         else scalemark (rot r) 0.386 0.373 "" false)
      (cd d)
  else dret tt.

(* KM/H on base layer *)
Definition km_marks (layers : list Z) (d : data) : Draw unit :=
  if layer_in 3 layers then
    scale_arc 0.4 (km d) ;;;
    for_rows
      (fun k =>
         if (orig k mod 5 =? 0)%Z then
           scalemark (rot k) 0.4 0.42 (format_int (orig k)) false
         else scalemark (rot k) 0.4 0.41 "" false)
      (km d)
  else dret tt.

(* Draw the selected layers into the provided context *)
Definition drawpage (layers : list Z) (d : data) : Draw unit :=
  page_style ;;;
  cuts layers ;;;
  centrepoint ;;;
  call (cairo.set_line_width 0.002) ;;;
  gi_marks layers d ;;;
  cr_marks layers d ;;;
  cg_marks layers d ;;;
  call (cairo.set_source_rgb 0.0 0.0 1.0) ;;;
  top_marks layers d ;;;
  km_marks layers d.

(** *** The calls of the three small functions, after the calls [c] *)

Definition text_calls (c : context) (x : R) (msg : string) : context :=
  if nonempty msg then
    [cairo.save; cairo.set_font_size 0.02;
     cairo.move_to x
       (0.3 * snd (text_extents_on
                     (c ++ [cairo.save; cairo.set_font_size 0.02]) msg));
     cairo.show_text msg; cairo.restore]
  else [].

Definition mark_calls (c : context) (a x1 x2 : R) (lbl : string)
  (right : bool) : context :=
  let tick := [cairo.save; cairo.rotate a; cairo.move_to x1 0.0;
               cairo.line_to x2 0.0; cairo.stroke] in
  tick
  ++ text_calls (c ++ tick) (if right then x2 - 0.04 else x2 + 0.01) lbl
  ++ [cairo.restore].

Definition box_calls (a x1 x2 : R) : context :=
  [cairo.save; cairo.rotate a;
   cairo.rectangle x1 (-0.018) (x2 - x1) 0.036; cairo.stroke; cairo.restore].

(** *** The calls drawpage makes before any scale *)

Definition style_calls : context :=
  [cairo.select_font_face "Nimbus Sans" cairo.FONT_SLANT_NORMAL
     cairo.FONT_WEIGHT_BOLD;
   cairo.set_line_cap cairo.LINE_CAP_ROUND;
   cairo.set_line_join cairo.LINE_JOIN_ROUND;
   cairo.set_source_rgb 0 0 0;
   cairo.set_line_width 0.001].

Definition cut_calls (layers : list Z) : context :=
  (if layer_in 2 layers then
     [cairo.new_sub_path; cairo.arc 0.0 0.0 0.393 0.0 (2.0 * PI)]
   else [])
  ++ (if (layer_in 1 layers || layer_in 3 layers)%bool then
        [cairo.new_sub_path; cairo.arc 0.0 0.0 0.49 0.0 (2.0 * PI)]
      else []).

Definition centre_calls : context :=
  [cairo.new_sub_path;
   cairo.arc 0.0 0.0 0.01 0.0 (2.0 * PI);
   cairo.move_to (-0.015) 0.0;
   cairo.line_to 0.015 0.0;
   cairo.move_to 0.0 (-0.015);
   cairo.line_to 0.0 0.015;
   cairo.stroke].

(** *** output_layers and the program *)

(* 25.4mm -> 72pt (1 inch) *)
Definition mm2pt (mm : R) : R := mm * 72.0 / 25.4.

(* a PDF surface: its size in points, the calls made on its context, and
   whether flush() and finish() were reached *)
Record surface : Type := Surface {
  width_pt : R;
  height_pt : R;
  calls : context;
  finished : bool
}.

Definition output_layers (layers : list Z) (d : data)
  : surface * result unit :=
  let v := mm2pt 100 in
  let p := mm2pt 80 in
  let d0 := 0.5 * (v - p) in
  let cx : context := [] in
  (* transform context to unit size *)
  match (call (cairo.translate d0 d0) ;;;
         call (cairo.scale p p) ;;;
         call (cairo.translate 0.5 0.5) ;;;
         drawpage layers d) cx with
  | (c, Ok _) => (Surface v v c true, Ok tt)
  | (c, Raise e) => (Surface v v c false, Raise e)
  end.

(* with open(FILEPFX + suffix, 'wb') as f: output_layers(f, layers, data),
   after the files written so far; opening the file is taken to succeed *)
Definition write_layers (pfx suffix : string) (layers : list Z) (d : data)
  (files : list (string * surface))
  : list (string * surface) * result unit :=
  let (s, r) := output_layers layers d in
  (files ++ [((pfx ++ suffix)%string, s)], r).

(* the body under  if __name__ == '__main__':  *)
Definition main (g : globals)
  : list (string * surface) * result unit :=
  match calculate g with
  | Raise e => ([], Raise e)
  | Ok (d, g1) =>
      let pfx := FILEPFX g1 in
      match write_layers pfx "_combined.pdf" [1; 2; 3]%Z d [] with
      | (files, Raise e) => (files, Raise e)
      | (files, Ok _) =>
      match write_layers pfx "_base.pdf" [3]%Z d files with
      | (files, Raise e) => (files, Raise e)
      | (files, Ok _) =>
      match write_layers pfx "_middle.pdf" [2]%Z d files with
      | (files, Raise e) => (files, Raise e)
      | (files, Ok _) => write_layers pfx "_top.pdf" [1]%Z d files
      end end end
  end.

End Drawing.

(* a text_extents that answers zero for every message *)
Definition no_extents : context -> string -> extents :=
  fun _ _ => (0, 0, 0, 0).

(** ** Reading the lists and the calls *)

(* the positions grow from each row of the list to the next *)
Definition increasing_along (l : list row) : Prop :=
  forall i j ri rj,
    (i < j)%nat -> nth_error l i = Some ri -> nth_error l j = Some rj ->
    rot ri < rot rj.

(* The depth of save() over restore() after the calls [ops], starting at
   depth [k]; [None] when a restore() finds nothing saved. *)
Fixpoint nesting (ops : context) (k : nat) : option nat :=
  match ops with
  | [] => Some k
  | cairo.save :: rest => nesting rest (S k)
  | cairo.restore :: rest =>
      match k with
      | O => None
      | S k1 => nesting rest k1
      end
  | _ :: rest => nesting rest k
  end.

(* the angles of the rotate() calls, in the order they were made *)
Definition rotations (ops : context) : list R :=
  flat_map (fun o => match o with cairo.rotate a => [a] | _ => [] end) ops.

(* the messages of the show_text() calls, in the order they were made *)
Definition texts (ops : context) : list string :=
  flat_map (fun o => match o with cairo.show_text m => [m] | _ => [] end) ops.

(** Three readings of a drawing body.  [neutral]: the body only adds
    calls, and the calls it adds restore every state they save.  [settled]:
    whether the body returns or raises does not depend on the calls made
    before.  [shows]: the rotations and the texts the body adds. *)

Definition balanced (ops : context) : Prop :=
  forall k, nesting ops k = Some k.

Definition neutral {A} (m : Draw A) : Prop :=
  forall c, exists ops, fst (m c) = c ++ ops /\ balanced ops.

Definition settled {A} (m : Draw A) (r : result A) : Prop :=
  forall c, snd (m c) = r.

Definition shows {A} (m : Draw A) (rs : list R) (ts : list string) : Prop :=
  forall c,
    rotations (fst (m c)) = rotations c ++ rs /\
    texts (fst (m c)) = texts c ++ ts.

(* the body returns exactly when [cond] holds, whatever was drawn before,
   and otherwise raises IndexError or KeyError *)
Definition checked (m : Draw unit) (cond : Prop) : Prop :=
  exists r, settled m r /\ (r = Ok tt <-> cond) /\
            forall e, r = Raise e -> e = IndexError \/ e = KeyError.

(* the body returns, and adds these rotations and texts *)
Definition draws (m : Draw unit) (rs : list R) (ts : list string) : Prop :=
  settled m (Ok tt) /\ shows m rs ts.

(* the result of one body followed by another *)
Definition then_ {A B} (r1 : result A) (r2 : result B) : result B :=
  match r1 with
  | Ok _ => r2
  | Raise e => Raise e
  end.

(* what the dictionary has to hold for the layers asked for *)
Definition drawable (layers : list Z) (d : data) : Prop :=
  (layer_in 3 layers = true -> gi d <> [] /\ cr d <> [] /\ km d <> []) /\
  (layer_in 2 layers = true -> cg d <> [] /\ refpt d <> None) /\
  (layer_in 1 layers = true -> sprefpt d <> None /\ cd d <> []).

(* the angles of the marks of a drawing of the layers, scale by scale *)
Definition marks (layers : list Z) (d : data) : list R :=
  (if layer_in 3 layers then map rot (gi d) ++ map rot (cr d) else [])
  ++ (if layer_in 2 layers then
        match refpt d with
        | Some a => a :: map rot (cg d)
        | None => []
        end
      else [])
  ++ (if layer_in 1 layers then
        match sprefpt d with
        | Some a => a :: a :: map rot (cd d)
        | None => []
        end
      else [])
  ++ (if layer_in 3 layers then map rot (km d) else []).

(* the raw values of the rows whose raw value is a multiple of [n] *)
Definition multiples (n : Z) (l : list row) : list Z :=
  map orig (filter (fun r => (orig r mod n =? 0)%Z) l).

(* the labels of a drawing of the layers, scale by scale *)
Definition labels (layers : list Z) (d : data) : list string :=
  (if layer_in 3 layers then
     map (fun n => (format_int n ++ inch_sign)%string) (multiples 2 (gi d))
     ++ map (fun r => (format_int (orig r) ++ "t")%string) (cr d)
   else [])
  ++ (if layer_in 2 layers then
        "CR"%string
        :: map (fun r => (format_int (orig r) ++ "t")%string) (cg d)
      else [])
  ++ (if layer_in 1 layers then
        "GR"%string :: map format_int (multiples 5 (cd d))
      else [])
  ++ (if layer_in 3 layers then map format_int (multiples 5 (km d)) else []).

(** ** Reading what calculate returns *)

(* the body [m], run in the module as the program leaves it, returns [a]
   and leaves the module's names as they were *)
Definition yields {A} (m : M A) (a : A) : Prop :=
  m module_globals = Ok (a, module_globals).

(* the first row of a list whose orig val is [raw] *)
Definition entry (l : list row) (raw : Z) : option row :=
  find (fun r => (orig r =? raw)%Z) l.

(* data['gi'][0][3], read as a float: the angle the gear inch rows are
   positioned from *)
Definition zero_angle (d : data) : M R :=
  first <- py_index (gi d) 0 ;;
  as_float (scaled first).

(* The speed row of 35 km/h: its corrected value is 35 / (3.6 * 2.090) and
   agrees with [t_ref], its logval agrees with [l_ref], both to four
   decimals, and its position is the scaled logval moved by 0.32 pi. *)
Definition speed_scenario (t_ref l_ref : R) : Prop :=
  exists d m e t,
    yields calculate d /\ yields (base_scaling d) m /\
    entry (km d) 35 = Some e /\
    corrected e = Some t /\ t = 35 / (3.6 * 2.090) /\
    Rabs (t - t_ref) <= 0.0001 /\
    logval e = ln t /\
    Rabs (logval e - l_ref) <= 0.0001 /\
    rot e = m * logval e + 0.32 * PI.

(** * Proofs *)

(** ** Running the monad *)

Lemma bind_run {A B} (m : M A) (k : A -> M B) g a g1 :
  m g = Ok (a, g1) -> (x <- m ;; k x) g = k a g1.
Proof. intros H. unfold bind. rewrite H. reflexivity. Qed.

Lemma py_log_run x g : 0 < x -> py_log x g = Ok (ln x, g).
Proof.
  intros H. unfold py_log. destruct (Rlt_dec 0 x) as [_|N]; [reflexivity|].
  contradiction.
Qed.

Lemma py_div_run x y g : y <> 0 -> py_div x y g = Ok (x / y, g).
Proof.
  intros H. unfold py_div. destruct (Req_dec_T y 0) as [E|_]; [|reflexivity].
  contradiction.
Qed.

Lemma py_index_run {A} (l : list A) n a g :
  nth_error l n = Some a -> py_index l n g = Ok (a, g).
Proof. intros H. unfold py_index. rewrite H. reflexivity. Qed.

Lemma py_last_run {A} (l : list A) a g : py_last (l ++ [a]) g = Ok (a, g).
Proof. unfold py_last. rewrite rev_app_distr. reflexivity. Qed.

(** ** Counting loops *)

Lemma zup_nil lo hi : (hi < lo)%Z -> zup lo hi = [].
Proof.
  intros H. unfold zup. replace (Z.to_nat (hi + 1 - lo)) with 0%nat by lia.
  reflexivity.
Qed.

Lemma zup_cons lo hi : (lo <= hi)%Z -> zup lo hi = lo :: zup (lo + 1) hi.
Proof.
  intros H. unfold zup.
  replace (Z.to_nat (hi + 1 - lo)) with (S (Z.to_nat (hi + 1 - (lo + 1))))
    by lia.
  simpl. f_equal; [lia|].
  rewrite <- seq_shift, map_map. apply map_ext. intros k. lia.
Qed.

Lemma zup_snoc lo hi : (lo <= hi)%Z -> zup lo hi = zup lo (hi - 1) ++ [hi].
Proof.
  intros H. unfold zup.
  replace (Z.to_nat (hi + 1 - lo)) with (Z.to_nat (hi - 1 + 1 - lo) + 1)%nat
    by lia.
  rewrite seq_app, map_app. simpl. do 2 f_equal. lia.
Qed.

Lemma zdown_nil hi lo : (hi < lo)%Z -> zdown hi lo = [].
Proof.
  intros H. unfold zdown. replace (Z.to_nat (hi + 1 - lo)) with 0%nat by lia.
  reflexivity.
Qed.

Lemma zdown_cons hi lo : (lo <= hi)%Z -> zdown hi lo = hi :: zdown (hi - 1) lo.
Proof.
  intros H. unfold zdown.
  replace (Z.to_nat (hi + 1 - lo)) with (S (Z.to_nat (hi - 1 + 1 - lo)))
    by lia.
  simpl. f_equal; [lia|].
  rewrite <- seq_shift, map_map. apply map_ext. intros k. lia.
Qed.

Lemma in_zup k lo hi : In k (zup lo hi) <-> (lo <= k <= hi)%Z.
Proof.
  unfold zup. rewrite in_map_iff. split.
  - intros (n & <- & Hn). apply in_seq in Hn. lia.
  - intros H. exists (Z.to_nat (k - lo)). split; [lia|].
    apply in_seq. lia.
Qed.

Lemma in_zdown k hi lo : In k (zdown hi lo) <-> (lo <= k <= hi)%Z.
Proof.
  unfold zdown. rewrite in_map_iff. split.
  - intros (n & <- & Hn). apply in_seq in Hn. lia.
  - intros H. exists (Z.to_nat (hi - k)). split; [lia|].
    apply in_seq. lia.
Qed.

Lemma while_le_run body f g hi : forall n i l,
  Z.to_nat (hi + 1 - i) = n ->
  (forall k, (i <= k <= hi)%Z -> body k g = Ok (f k, g)) ->
  while_le body i hi l g = Ok (l ++ map f (zup i hi), g).
Proof.
  induction n as [|n IH]; intros i l Hn Hb.
  - simp while_le. destruct (Z_le_gt_dec i hi) as [Hle|Hgt]; [lia|].
    simpl. rewrite zup_nil by lia. simpl. rewrite app_nil_r. reflexivity.
  - simp while_le. destruct (Z_le_gt_dec i hi) as [Hle|Hgt]; [|lia].
    simpl. rewrite (Hb i) by lia. simpl.
    rewrite IH; [| lia | intros k Hk; apply Hb; lia].
    rewrite (zup_cons i hi) by lia. simpl. rewrite <- app_assoc. reflexivity.
Qed.

Lemma while_ge_run body f g lo : forall n i l,
  Z.to_nat (i + 1 - lo) = n ->
  (forall k, (lo <= k <= i)%Z -> body k g = Ok (f k, g)) ->
  while_ge body i lo l g = Ok (l ++ map f (zdown i lo), g).
Proof.
  induction n as [|n IH]; intros i l Hn Hb.
  - simp while_ge. destruct (Z_ge_lt_dec i lo) as [Hge|Hlt]; [lia|].
    simpl. rewrite zdown_nil by lia. simpl. rewrite app_nil_r. reflexivity.
  - simp while_ge. destruct (Z_ge_lt_dec i lo) as [Hge|Hlt]; [|lia].
    simpl. rewrite (Hb i) by lia. simpl.
    rewrite IH; [| lia | intros k Hk; apply Hb; lia].
    rewrite (zdown_cons i lo) by lia. simpl. rewrite <- app_assoc.
    reflexivity.
Qed.

Lemma for_each_run body (f h : Z -> row) g : forall ks,
  (forall k, In k ks -> body (f k) g = Ok (h k, g)) ->
  for_each body (map f ks) g = Ok (map h ks, g).
Proof.
  induction ks as [|k ks IH]; intros Hb; [reflexivity|].
  simpl. rewrite (bind_run _ _ _ _ _ (Hb k (or_introl eq_refl))).
  rewrite (bind_run _ _ _ _ _ (IH (fun j Hj => Hb j (or_intror Hj)))).
  reflexivity.
Qed.

(** ** The loop bodies *)

Lemma gi_row_run i g : (0 < i)%Z -> gi_row i g = Ok (gi_built i, g).
Proof.
  intros H. unfold gi_row.
  assert (P : 0 < IZR i / 27.0) by (apply IZR_lt in H; lra).
  rewrite (bind_run _ _ _ _ _ (py_log_run _ g P)). reflexivity.
Qed.

Lemma cr_row_run i g : (0 < i)%Z -> cr_row i g = Ok (teeth_built i, g).
Proof.
  intros H. unfold cr_row. apply IZR_lt in H.
  rewrite (bind_run _ _ _ _ _ (py_log_run _ g H)). reflexivity.
Qed.

Lemma cg_row_run i g : (0 < i)%Z -> cg_row i g = Ok (teeth_built i, g).
Proof.
  intros H. unfold cg_row. apply IZR_lt in H.
  rewrite (bind_run _ _ _ _ _ (py_log_run _ g H)). reflexivity.
Qed.

Lemma km_row_run i g :
  (0 < i)%Z -> 0 < TYRE_C g -> km_row i g = Ok (km_built (TYRE_C g) i, g).
Proof.
  intros H Ht. unfold km_row. apply IZR_lt in H.
  rewrite (bind_run read_TYRE_C _ g (TYRE_C g) g eq_refl).
  assert (N : 3.6 * TYRE_C g <> 0) by lra.
  rewrite (bind_run _ _ _ _ _ (py_div_run (IZR i) _ g N)).
  assert (P : 0 < IZR i / (3.6 * TYRE_C g)).
  { apply Rdiv_lt_0_compat; lra. }
  rewrite (bind_run _ _ _ _ _ (py_log_run _ g P)). reflexivity.
Qed.

Lemma cd_row_run i g : (0 < i)%Z -> cd_row i g = Ok (cd_built i, g).
Proof.
  intros H. unfold cd_row.
  assert (P : 0 < IZR i / 60.0) by (apply IZR_lt in H; lra).
  rewrite (bind_run _ _ _ _ _ (py_log_run _ g P)). reflexivity.
Qed.

(** ** The base axis scaling *)

Lemma girangeraw_pos : 0 < girangeraw.
Proof.
  unfold girangeraw, girawmax, girawmin.
  assert (H : ln (68 / 27.0) < ln (112 / 27.0)) by (apply ln_increasing; lra).
  lra.
Qed.

Lemma gimod_pos : 0 < gimod.
Proof.
  unfold gimod, girangerad. apply Rdiv_lt_0_compat; [|apply girangeraw_pos].
  pose proof PI_RGT_0. lra.
Qed.

Lemma gimod_span : gimod * girangeraw = girangerad.
Proof.
  unfold gimod. pose proof girangeraw_pos. field. lra.
Qed.

Lemma nth_error_zup lo hi n :
  (lo + Z.of_nat n <= hi)%Z -> nth_error (zup lo hi) n = Some (lo + Z.of_nat n)%Z.
Proof.
  intros H. unfold zup.
  rewrite nth_error_map, nth_error_seq.
  destruct (Nat.ltb_spec n (Z.to_nat (hi + 1 - lo))); [reflexivity | lia].
Qed.

Lemma nth_error_zdown hi lo n :
  (lo <= hi - Z.of_nat n)%Z ->
  nth_error (zdown hi lo) n = Some (hi - Z.of_nat n)%Z.
Proof.
  intros H. unfold zdown.
  rewrite nth_error_map, nth_error_seq.
  destruct (Nat.ltb_spec n (Z.to_nat (hi + 1 - lo))); [reflexivity | lia].
Qed.

Lemma index_zup {A} (f : Z -> A) lo hi n k g :
  (lo + Z.of_nat n)%Z = k -> (k <= hi)%Z ->
  py_index (map f (zup lo hi)) n g = Ok (f k, g).
Proof.
  intros <- H. apply py_index_run.
  rewrite nth_error_map, nth_error_zup by lia. reflexivity.
Qed.

Lemma index_zdown {A} (f : Z -> A) hi lo n k g :
  (hi - Z.of_nat n)%Z = k -> (lo <= k)%Z ->
  py_index (map f (zdown hi lo)) n g = Ok (f k, g).
Proof.
  intros <- H. apply py_index_run.
  rewrite nth_error_map, nth_error_zdown by lia. reflexivity.
Qed.

Lemma last_zup {A} (f : Z -> A) lo hi g :
  (lo <= hi)%Z -> py_last (map f (zup lo hi)) g = Ok (f hi, g).
Proof.
  intros H. rewrite zup_snoc, map_app by lia. apply py_last_run.
Qed.

Lemma base_scaling_run d f g :
  gi d = map f (zup 68 112) ->
  logval (f 68%Z) = girawmin -> logval (f 112%Z) = girawmax ->
  base_scaling d g = Ok (gimod, g).
Proof.
  intros E H1 H2. unfold base_scaling. rewrite E.
  rewrite (bind_run _ _ _ _ _ (index_zup f 68 112 0 68 g eq_refl ltac:(lia))).
  rewrite (bind_run _ _ _ _ _ (last_zup f 68 112 g ltac:(lia))).
  rewrite H1, H2. apply py_div_run.
  pose proof girangeraw_pos. unfold girangeraw in *. lra.
Qed.

(** ** calculate returns the closed form *)

Lemma zero_row_run k g :
  k <> 60%Z -> zero_row (Some gimin) (gi_scaled k) g = Ok (gi_mark k, g).
Proof.
  intros H. unfold zero_row. cbn [orig gi_scaled set_scaled gi_built].
  destruct (Z.eqb_spec k 60) as [E|_]; [contradiction|]. reflexivity.
Qed.

Ltac run H := rewrite (bind_run _ _ _ _ _ H); cbn [app].

Theorem calculate_returns g :
  0 < TYRE_C g -> calculate g = Ok (scales (TYRE_C g), g).
Proof.
  intros Ht.
  cbv [calculate set_gi set_cr set_cg set_km set_cd set_refpt set_sprefpt
       empty_data gi cr cg km cd refpt sprefpt].
  (* the five building loops *)
  run (while_le_run gi_row gi_built g 112 _ 68 [] eq_refl
         (fun k Hk => gi_row_run k g ltac:(lia))).
  run (while_le_run cr_row teeth_built g 52 _ 42 [] eq_refl
         (fun k Hk => cr_row_run k g ltac:(lia))).
  run (while_ge_run cg_row teeth_built g 12 _ 18 [] eq_refl
         (fun k Hk => cg_row_run k g ltac:(lia))).
  run (while_le_run km_row (km_built (TYRE_C g)) g 55 _ 35 [] eq_refl
         (fun k Hk => km_row_run k g ltac:(lia) Ht)).
  run (while_le_run cd_row cd_built g 150 _ 80 [] eq_refl
         (fun k Hk => cd_row_run k g ltac:(lia))).
  (* base axis scaling *)
  run (base_scaling_run
         (Data (map gi_built (zup 68 112)) (map teeth_built (zup 42 52))
            (map teeth_built (zdown 18 12))
            (map (km_built (TYRE_C g)) (zup 35 55))
            (map cd_built (zup 80 150)) None None)
         gi_built g eq_refl eq_refl eq_refl).
  (* gear inches *)
  run (for_each_run (scale_row gimod) gi_built gi_scaled g (zup 68 112)
         (fun k _ => eq_refl)).
  run (index_zup gi_scaled 68 112 0 68 g eq_refl ltac:(lia)).
  change (scaled (gi_scaled 68)) with (Some gimin).
  run (for_each_run (zero_row (Some gimin)) gi_scaled gi_mark g (zup 68 112)
         (fun k Hk => zero_row_run k g
            ltac:(apply in_zup in Hk; lia))).
  (* chainrings *)
  run (for_each_run (place_row gimod (0.525 * PI)) teeth_built cr_mark g
         (zup 42 52) (fun k _ => eq_refl)).
  run (index_zup cr_mark 42 52 5 47 g eq_refl ltac:(lia)).
  (* cogs *)
  rewrite (bind_run (as_float (Some gimin)) _ g gimin g eq_refl).
  run (index_zup cr_mark 42 52 5 47 g eq_refl ltac:(lia)).
  rewrite (bind_run (as_float (scaled (cr_mark 47))) _ g (gimod * ln 47) g
             eq_refl).
  run (for_each_run (place_row (-1.0 * gimod) (gimin - gimod * ln 47))
         teeth_built cg_mark g (zdown 18 12) (fun k _ => eq_refl)).
  run (index_zdown cg_mark 18 12 3 15 g eq_refl ltac:(lia)).
  (* speed *)
  run (for_each_run (place_row gimod (-0.32 * PI)) (km_built (TYRE_C g))
         (km_mark (TYRE_C g)) g (zup 35 55) (fun k _ => eq_refl)).
  (* cadence *)
  run (index_zup gi_mark 68 112 0 68 g eq_refl ltac:(lia)).
  rewrite (bind_run (as_float (scaled (gi_mark 68))) _ g gimin g eq_refl).
  run (for_each_run
         (cadence_row gimod (gimin - -0.32 * PI) (Some (rot (cg_mark 15))))
         cd_built cd_mark g (zup 80 150) (fun k _ => eq_refl)).
  reflexivity.
Qed.

(** ** The returned dictionary, as read by the claims *)

Lemma calculate_yields : yields calculate (scales 2.090).
Proof.
  unfold yields. apply (calculate_returns module_globals).
  cbn [TYRE_C module_globals]. lra.
Qed.

Lemma base_scaling_yields t : yields (base_scaling (scales t)) gimod.
Proof.
  unfold yields.
  apply (base_scaling_run (scales t) gi_mark); reflexivity.
Qed.

Lemma zero_angle_yields t : yields (zero_angle (scales t)) gimin.
Proof.
  unfold yields, zero_angle. cbn [gi scales].
  rewrite (bind_run _ _ _ _ _
             (index_zup gi_mark 68 112 0 68 _ eq_refl ltac:(lia))).
  reflexivity.
Qed.

Lemma entry_map (f : Z -> row) k : forall ks,
  (forall j, orig (f j) = j) -> In k ks -> entry (map f ks) k = Some (f k).
Proof.
  intros ks Hf. unfold entry.
  induction ks as [|a ks IH]; intros Hin; [destruct Hin|].
  simpl. rewrite Hf. destruct (Z.eqb_spec a k) as [->|N]; [reflexivity|].
  destruct Hin as [E|Hin]; [contradiction|]. apply IH, Hin.
Qed.

Lemma map_orig (f : Z -> row) ks :
  (forall j, orig (f j) = j) -> map orig (map f ks) = ks.
Proof.
  intros Hf. rewrite map_map. rewrite (map_ext _ (fun j => j) Hf).
  apply map_id.
Qed.

Lemma gi_entry t k :
  (68 <= k <= 112)%Z -> entry (gi (scales t)) k = Some (gi_mark k).
Proof.
  intros H. apply entry_map; [reflexivity | apply in_zup; exact H].
Qed.

Lemma cr_entry t k :
  (42 <= k <= 52)%Z -> entry (cr (scales t)) k = Some (cr_mark k).
Proof.
  intros H. apply entry_map; [reflexivity | apply in_zup; exact H].
Qed.

Lemma cg_entry t k :
  (12 <= k <= 18)%Z -> entry (cg (scales t)) k = Some (cg_mark k).
Proof.
  intros H. apply entry_map; [reflexivity | apply in_zdown; exact H].
Qed.

Lemma km_entry t k :
  (35 <= k <= 55)%Z -> entry (km (scales t)) k = Some (km_mark t k).
Proof.
  intros H. apply entry_map; [reflexivity | apply in_zup; exact H].
Qed.

Lemma cd_entry t k :
  (80 <= k <= 150)%Z -> entry (cd (scales t)) k = Some (cd_mark k).
Proof.
  intros H. apply entry_map; [reflexivity | apply in_zup; exact H].
Qed.

Lemma gi_in t e :
  In e (gi (scales t)) -> exists k, (68 <= k <= 112)%Z /\ e = gi_mark k.
Proof.
  cbn [gi scales]. rewrite in_map_iff. intros (k & <- & Hk).
  exists k. split; [apply in_zup, Hk | reflexivity].
Qed.

Lemma ln_ratio a b : 0 < a -> 0 < b -> ln (a / b) = ln a - ln b.
Proof.
  intros Ha Hb. unfold Rdiv.
  rewrite ln_mult by (try apply Rinv_0_lt_compat; assumption).
  rewrite ln_Rinv by assumption. ring.
Qed.

(** ** Bounds on the exponential, for the logarithm of one speed *)

Lemma derivable_pt_lim_eq (f g : R -> R) (x l m : R) :
  (forall y, f y = g y) -> l = m ->
  derivable_pt_lim f x l -> derivable_pt_lim g x m.
Proof.
  intros E <- D eps Heps. destruct (D eps Heps) as [delta Hd].
  exists delta. intros h Hh Hlt. rewrite <- !E. apply Hd; assumption.
Qed.

Lemma exp_order2_deriv c :
  derivable_pt_lim (fun y => exp y - (1 + y + / 2 * (y * y))) c
    (exp c - (1 + c)).
Proof.
  apply (derivable_pt_lim_eq
           (exp - (fct_cte 1 + id + mult_real_fct (/ 2) (id * id)))%F _ c
           (exp c - (0 + 1 + / 2 * (1 * id c + id c * 1)))).
  - intros y. reflexivity.
  - unfold id. lra.
  - apply derivable_pt_lim_minus; [apply derivable_pt_lim_exp|].
    apply derivable_pt_lim_plus.
    + apply derivable_pt_lim_plus;
        [apply derivable_pt_lim_const | apply derivable_pt_lim_id].
    + apply derivable_pt_lim_scal, derivable_pt_lim_mult;
        apply derivable_pt_lim_id.
Qed.

Lemma exp_order2 x : x <= 0 -> exp x <= 1 + x + / 2 * (x * x).
Proof.
  intros [Hx | ->]; [|rewrite exp_0; lra].
  destruct (MVT_cor2 (fun y => exp y - (1 + y + / 2 * (y * y)))
              (fun c => exp c - (1 + c)) x 0 Hx
              (fun c _ => exp_order2_deriv c)) as (c & E & Hc).
  rewrite exp_0 in E. pose proof (exp_ineq1_le c) as I.
  assert (0 <= (exp c - (1 + c)) * (0 - x)) by (apply Rmult_le_pos; lra).
  lra.
Qed.

Lemma exp_order3_deriv c :
  derivable_pt_lim
    (fun y => exp y - (1 + y + / 2 * (y * y) + / 6 * (y * (y * y)))) c
    (exp c - (1 + c + / 2 * (c * c))).
Proof.
  apply (derivable_pt_lim_eq
           (exp - (fct_cte 1 + id + mult_real_fct (/ 2) (id * id)
                   + mult_real_fct (/ 6) (id * (id * id))))%F _ c
           (exp c - (0 + 1 + / 2 * (1 * id c + id c * 1)
                     + / 6 * (1 * (id * id)%F c
                              + id c * (1 * id c + id c * 1))))).
  - intros y. reflexivity.
  - unfold mult_fct, id. lra.
  - apply derivable_pt_lim_minus; [apply derivable_pt_lim_exp|].
    apply derivable_pt_lim_plus; [apply derivable_pt_lim_plus|].
    + apply derivable_pt_lim_plus;
        [apply derivable_pt_lim_const | apply derivable_pt_lim_id].
    + apply derivable_pt_lim_scal, derivable_pt_lim_mult;
        apply derivable_pt_lim_id.
    + apply derivable_pt_lim_scal, derivable_pt_lim_mult;
        [apply derivable_pt_lim_id|].
      apply derivable_pt_lim_mult; apply derivable_pt_lim_id.
Qed.

Lemma exp_order3 x :
  x <= 0 -> 1 + x + / 2 * (x * x) + / 6 * (x * (x * x)) <= exp x.
Proof.
  intros [Hx | ->]; [|rewrite exp_0; lra].
  destruct (MVT_cor2
              (fun y => exp y - (1 + y + / 2 * (y * y) + / 6 * (y * (y * y))))
              (fun c => exp c - (1 + c + / 2 * (c * c))) x 0 Hx
              (fun c _ => exp_order3_deriv c)) as (c & E & Hc).
  rewrite exp_0 in E.
  assert (I : exp c <= 1 + c + / 2 * (c * c)) by (apply exp_order2; lra).
  assert (0 <= (1 + c + / 2 * (c * c) - exp c) * (0 - x))
    by (apply Rmult_le_pos; lra).
  lra.
Qed.

Lemma exp_INR_mult x n : exp (INR n * x) = exp x ^ n.
Proof.
  induction n as [|n IH].
  - simpl. rewrite Rmult_0_l. apply exp_0.
  - rewrite S_INR, Rmult_plus_distr_r, Rmult_1_l, exp_plus, IH.
    simpl. ring.
Qed.

Lemma exp_neg_upper t n :
  0 <= t -> exp (- (INR n * t)) <= (1 - t + / 2 * (t * t)) ^ n.
Proof.
  intros Ht. replace (- (INR n * t)) with (INR n * - t) by ring.
  rewrite exp_INR_mult. apply pow_incr. split; [left; apply exp_pos|].
  pose proof (exp_order2 (- t)) as H. lra.
Qed.

Lemma exp_neg_lower t n :
  0 <= t -> 0 <= 1 - t + / 2 * (t * t) - / 6 * (t * (t * t)) ->
  (1 - t + / 2 * (t * t) - / 6 * (t * (t * t))) ^ n <= exp (- (INR n * t)).
Proof.
  intros Ht Hp. replace (- (INR n * t)) with (INR n * - t) by ring.
  rewrite exp_INR_mult. apply pow_incr. split; [exact Hp|].
  pose proof (exp_order3 (- t)) as H. lra.
Qed.

Lemma ln_below x hi : 0 < x -> exp (- hi) < / x -> ln x < hi.
Proof.
  intros Hx H. rewrite <- (ln_exp hi). apply ln_increasing; [exact Hx|].
  rewrite exp_Ropp in H.
  destruct (Rlt_le_dec x (exp hi)) as [L|L]; [exact L|].
  apply Rinv_le_contravar in L; [lra | apply exp_pos].
Qed.

Lemma ln_above x lo : 0 < x -> / x < exp (- lo) -> lo < ln x.
Proof.
  intros Hx H. rewrite <- (ln_exp lo). apply ln_increasing; [apply exp_pos|].
  rewrite exp_Ropp in H.
  destruct (Rlt_le_dec (exp lo) x) as [L|L]; [exact L|].
  apply Rinv_le_contravar in L; [lra | exact Hx].
Qed.

Lemma ratio_lt (a b p q : R) :
  0 < b -> 0 < q -> a * q < p * b -> a / b < p / q.
Proof.
  intros Hb Hq H.
  assert (E : p / q - a / b = (p * b - a * q) * (/ b * / q))
    by (field; lra).
  assert (0 < (p * b - a * q) * (/ b * / q)).
  { apply Rmult_lt_0_compat; [lra|].
    apply Rmult_lt_0_compat; apply Rinv_0_lt_compat; assumption. }
  lra.
Qed.

Lemma frac_pow (A B : Z) (n : nat) :
  (IZR A / IZR B) ^ n = IZR (A ^ Z.of_nat n) / IZR (B ^ Z.of_nat n).
Proof.
  unfold Rdiv. rewrite Rpow_mult_distr, pow_inv, !pow_IZR. reflexivity.
Qed.

Lemma frac_pow_lt (A B P Q : Z) (n : nat) :
  (0 < B)%Z -> (0 < Q)%Z ->
  (A ^ Z.of_nat n * Q < P * B ^ Z.of_nat n)%Z ->
  (IZR A / IZR B) ^ n < IZR P / IZR Q.
Proof.
  intros HB HQ H. rewrite frac_pow. apply ratio_lt.
  - apply IZR_lt. apply Z.pow_pos_nonneg; lia.
  - apply IZR_lt, HQ.
  - rewrite <- !mult_IZR. apply IZR_lt, H.
Qed.

Lemma frac_pow_gt (A B P Q : Z) (n : nat) :
  (0 < B)%Z -> (0 < Q)%Z ->
  (P * B ^ Z.of_nat n < A ^ Z.of_nat n * Q)%Z ->
  IZR P / IZR Q < (IZR A / IZR B) ^ n.
Proof.
  intros HB HQ H. rewrite frac_pow. apply ratio_lt.
  - apply IZR_lt, HQ.
  - apply IZR_lt. apply Z.pow_pos_nonneg; lia.
  - rewrite <- !mult_IZR. apply IZR_lt. lia.
Qed.

Lemma ln_speed_35 : 1.5372 < ln (35 / (3.6 * 2.090)) < 1.5374.
Proof.
  assert (E : 3.6 * 2.090 = 7524 / 1000) by lra.
  assert (X : / (35 / (3.6 * 2.090)) = IZR 7524 / IZR 35000)
    by (rewrite E; field).
  assert (N : INR 128 = 128)
    by (rewrite INR_IZR_INZ; reflexivity).
  split.
  - apply ln_above; [lra|]. rewrite X.
    replace 1.5372 with (INR 128 * (3843 / 320000)) by (rewrite N; lra).
    eapply Rlt_le_trans; [|apply exp_neg_lower; lra].
    replace (1 - 3843 / 320000 + / 2 * (3843 / 320000 * (3843 / 320000))
             - / 6 * (3843 / 320000 * (3843 / 320000 * (3843 / 320000))))
      with (IZR 64753660649040631 / IZR 65536000000000000) by lra.
    apply frac_pow_gt; [lia | lia | vm_compute; reflexivity].
  - apply ln_below; [lra|]. rewrite X.
    replace 1.5374 with (INR 128 * (7687 / 640000)) by (rewrite N; lra).
    eapply Rle_lt_trans; [apply exp_neg_upper; lra|].
    replace (1 - 7687 / 640000 + / 2 * (7687 / 640000 * (7687 / 640000)))
      with (IZR 809419729969 / IZR 819200000000) by lra.
    apply frac_pow_lt; [lia | lia | vm_compute; reflexivity].
Qed.

(** ** When calculate raises *)

Lemma while_le_raises body i hi l g e :
  (i <= hi)%Z -> body i g = Raise e -> while_le body i hi l g = Raise e.
Proof.
  intros Hi Hb. simp while_le.
  destruct (Z_le_gt_dec i hi) as [Hle|Hgt]; [|lia].
  simpl. rewrite Hb. reflexivity.
Qed.

Lemma bind_raises {A B} (m : M A) (k : A -> M B) g e :
  m g = Raise e -> (x <- m ;; k x) g = Raise e.
Proof. intros H. unfold bind. rewrite H. reflexivity. Qed.

Lemma km_row_zero i g : TYRE_C g = 0 -> km_row i g = Raise ZeroDivisionError.
Proof.
  intros H. unfold km_row.
  rewrite (bind_run read_TYRE_C _ g (TYRE_C g) g eq_refl).
  apply bind_raises. unfold py_div.
  destruct (Req_dec_T (3.6 * TYRE_C g) 0) as [_|N]; [reflexivity|].
  exfalso. apply N. rewrite H. lra.
Qed.

Lemma km_row_negative i g :
  (0 < i)%Z -> TYRE_C g < 0 -> km_row i g = Raise ValueError.
Proof.
  intros Hi H. unfold km_row. apply IZR_lt in Hi.
  rewrite (bind_run read_TYRE_C _ g (TYRE_C g) g eq_refl).
  assert (N : 3.6 * TYRE_C g <> 0) by lra.
  rewrite (bind_run _ _ _ _ _ (py_div_run (IZR i) _ g N)).
  apply bind_raises. unfold py_log.
  destruct (Rlt_dec 0 (IZR i / (3.6 * TYRE_C g))) as [P|_]; [|reflexivity].
  exfalso.
  assert (Q : 0 < - (3.6 * TYRE_C g)) by lra.
  assert (S : 0 < IZR i / - (3.6 * TYRE_C g))
    by (apply Rdiv_lt_0_compat; lra).
  rewrite Rdiv_opp_r in S. lra.
Qed.

Lemma calculate_stops_at_speed g e :
  km_row 35 g = Raise e -> calculate g = Raise e.
Proof.
  intros H.
  cbv [calculate set_gi set_cr set_cg set_km set_cd set_refpt set_sprefpt
       empty_data gi cr cg km cd refpt sprefpt].
  run (while_le_run gi_row gi_built g 112 _ 68 [] eq_refl
         (fun k Hk => gi_row_run k g ltac:(lia))).
  run (while_le_run cr_row teeth_built g 52 _ 42 [] eq_refl
         (fun k Hk => cr_row_run k g ltac:(lia))).
  run (while_ge_run cg_row teeth_built g 12 _ 18 [] eq_refl
         (fun k Hk => cg_row_run k g ltac:(lia))).
  apply bind_raises. apply while_le_raises; [lia | exact H].
Qed.

Lemma ln_zero_iff x : 0 < x -> (ln x = 0 <-> x = 1).
Proof.
  intros Hx. split.
  - intros H. apply ln_inv; [exact Hx | lra | rewrite ln_1; exact H].
  - intros ->. apply ln_1.
Qed.



(** ** The claims *)

(** C1. Slide-rule alignment for [gear inches = 27 x chainring / cog]: for
    every chainring [r] in 42..52 and every cog [c] in 12..18, the position
    of the chainring mark plus the position of the cog mark, taken from the
    CR reference mark, is the position of [27 * r / c] on the gear inch
    scale, [gimod * ln ((27 * r / c) / 27) - zero angle].  It is off the
    mark of a gear inch row [G] by [gimod * ln ((27 * r / c) / G)], and
    stands on that mark exactly when [27 * r = G * c]. *)
Theorem gear_alignment (r c G : Z) :
  (42 <= r <= 52)%Z -> (12 <= c <= 18)%Z -> (68 <= G <= 112)%Z ->
  exists d m z ref er ec eg,
    yields calculate d /\ yields (base_scaling d) m /\
    yields (zero_angle d) z /\ refpt d = Some ref /\
    entry (cr d) r = Some er /\ entry (cg d) c = Some ec /\
    entry (gi d) G = Some eg /\
    rot er + rot ec - ref = m * ln (27 * IZR r / IZR c / 27) - z /\
    rot er + rot ec - ref - rot eg = m * ln (27 * IZR r / IZR c / IZR G) /\
    ((27 * r = G * c)%Z <-> rot er + rot ec - ref = rot eg).
Proof.
  intros Hr Hc HG.
  exists (scales 2.090), gimod, gimin, (rot (cr_mark 47)),
    (cr_mark r), (cg_mark c), (gi_mark G).
  split; [apply calculate_yields|].
  split; [apply base_scaling_yields|].
  split; [apply zero_angle_yields|].
  split; [reflexivity|].
  split; [apply cr_entry, Hr|].
  split; [apply cg_entry, Hc|].
  split; [apply gi_entry, HG|].
  assert (Pr : 0 < IZR r) by (apply IZR_lt; lia).
  assert (Pc : 0 < IZR c) by (apply IZR_lt; lia).
  assert (PG : 0 < IZR G) by (apply IZR_lt; lia).
  assert (Prc : 0 < IZR r / IZR c) by (apply Rdiv_lt_0_compat; assumption).
  assert (F : rot (cr_mark r) + rot (cg_mark c) - rot (cr_mark 47)
              = gimod * (ln (IZR r) - ln (IZR c)) - gimin).
  { cbn [rot cr_mark cg_mark set_rot set_scaled logval teeth_built].
    unfold cgmod, cgmin. lra. }
  assert (D : rot (cr_mark r) + rot (cg_mark c) - rot (cr_mark 47)
              - rot (gi_mark G)
              = gimod * ln (27 * IZR r / IZR c / IZR G)).
  { rewrite F.
    replace (27 * IZR r / IZR c / IZR G)
      with (IZR r / IZR c / (IZR G / 27)) by (field; lra).
    rewrite (ln_ratio (IZR r / IZR c)) by lra.
    rewrite (ln_ratio (IZR r)) by assumption.
    cbn [rot gi_mark gi_scaled set_rot set_scaled logval gi_built].
    replace (IZR G / 27.0) with (IZR G / 27) by lra. lra. }
  split.
  { rewrite F.
    replace (27 * IZR r / IZR c / 27) with (IZR r / IZR c) by (field; lra).
    rewrite ln_ratio by assumption. reflexivity. }
  split; [exact D|].
  pose proof gimod_pos as Pm.
  assert (Pq : 0 < 27 * IZR r / IZR c / IZR G).
  { apply Rdiv_lt_0_compat; [apply Rdiv_lt_0_compat|]; lra. }
  split.
  - intros E. apply (f_equal IZR) in E. rewrite !mult_IZR in E.
    replace (27 * IZR r / IZR c / IZR G) with 1 in D.
    + rewrite ln_1 in D. lra.
    + rewrite E. field. lra.
  - intros E.
    assert (Z0 : gimod * ln (27 * IZR r / IZR c / IZR G) = 0) by lra.
    apply Rmult_integral in Z0. destruct Z0 as [Z0|Z0]; [lra|].
    apply ln_zero_iff in Z0; [|exact Pq].
    apply eq_IZR. rewrite !mult_IZR.
    apply (Rmult_eq_compat_r (IZR c * IZR G)) in Z0.
    replace (27 * IZR r / IZR c / IZR G * (IZR c * IZR G))
      with (27 * IZR r) in Z0 by (field; lra).
    lra.
Qed.

Lemma gear_alignment_witness :
  exists d m z ref er ec eg,
    yields calculate d /\ yields (base_scaling d) m /\
    yields (zero_angle d) z /\ refpt d = Some ref /\
    entry (cr d) 48 = Some er /\ entry (cg d) 16 = Some ec /\
    entry (gi d) 81 = Some eg /\
    rot er + rot ec - ref = m * ln (27 * 48 / 16 / 27) - z /\
    rot er + rot ec - ref - rot eg = m * ln (27 * 48 / 16 / 81) /\
    ((27 * 48 = 81 * 16)%Z <-> rot er + rot ec - ref = rot eg).
Proof. apply (gear_alignment 48 16 81); lia. Defined.

(** C2. The returned dictionary holds the five series in the order they were
    generated, with the lengths of their integer domains: 45 gear inch rows
    (68..112), 11 chainring rows (42..52), 7 cog rows (18 down to 12),
    21 speed rows (35..55) and 71 cadence rows (80..150). *)
Theorem series_lengths :
  exists d,
    yields calculate d /\
    (map orig (gi d) = zup 68 112 /\ List.length (gi d) = 45%nat) /\
    (map orig (cr d) = zup 42 52 /\ List.length (cr d) = 11%nat) /\
    (map orig (cg d) = zdown 18 12 /\ List.length (cg d) = 7%nat) /\
    (map orig (km d) = zup 35 55 /\ List.length (km d) = 21%nat) /\
    (map orig (cd d) = zup 80 150 /\ List.length (cd d) = 71%nat).
Proof.
  exists (scales 2.090). split; [apply calculate_yields|].
  cbn [gi cr cg km cd scales].
  repeat apply conj;
    try (apply map_orig; reflexivity);
    rewrite length_map; reflexivity.
Qed.

(** C3. Gear inch end points and span: the gear inch row of 68 is placed at
    angle 0, the row of 112 at 0.82 pi, and the modulus [gimod] satisfies
    [gimod * (ln (112 / 27) - ln (68 / 27)) = 0.82 pi], all as equations
    between real numbers. *)
Theorem gear_inch_span :
  exists d m e68 e112,
    yields calculate d /\ yields (base_scaling d) m /\
    entry (gi d) 68 = Some e68 /\ rot e68 = 0 /\
    entry (gi d) 112 = Some e112 /\ rot e112 = 0.82 * PI /\
    m * (ln (112 / 27) - ln (68 / 27)) = 0.82 * PI.
Proof.
  exists (scales 2.090), gimod, (gi_mark 68), (gi_mark 112).
  pose proof gimod_span as S.
  unfold girangeraw, girawmax, girawmin, girangerad in S.
  split; [apply calculate_yields|].
  split; [apply base_scaling_yields|].
  split; [apply gi_entry; lia|].
  split.
  { cbn [rot gi_mark set_rot]. unfold gimin, girawmin.
    cbn [logval gi_built]. lra. }
  split; [apply gi_entry; lia|].
  split.
  { cbn [rot gi_mark set_rot]. unfold gimin, girawmin.
    cbn [logval gi_built]. lra. }
  replace (112 / 27) with (112 / 27.0) by lra.
  replace (68 / 27) with (68 / 27.0) by lra.
  exact S.
Qed.

(** C4. Gear inch placement: every gear inch row has scaled angle
    [gimod * ln (raw / 27)]; the zero angle [data['gi'][0][3]] is the scaled
    angle of the row of 68, the least raw value of the series; and every row
    whose raw value is not 60 is placed at its scaled angle minus the zero
    angle. *)
Theorem gear_inch_placement :
  exists d m z e68,
    yields calculate d /\ yields (base_scaling d) m /\
    yields (zero_angle d) z /\
    entry (gi d) 68 = Some e68 /\ scaled e68 = Some z /\
    forall e, In e (gi d) ->
      (68 <= orig e)%Z /\
      scaled e = Some (m * ln (IZR (orig e) / 27)) /\
      (orig e <> 60%Z -> rot e = m * ln (IZR (orig e) / 27) - z).
Proof.
  exists (scales 2.090), gimod, gimin, (gi_mark 68).
  split; [apply calculate_yields|].
  split; [apply base_scaling_yields|].
  split; [apply zero_angle_yields|].
  split; [apply gi_entry; lia|].
  split; [reflexivity|].
  intros e He. apply gi_in in He. destruct He as (k & Hk & ->).
  cbn [orig scaled rot gi_mark gi_scaled set_rot set_scaled gi_built logval].
  replace (IZR k / 27) with (IZR k / 27.0) by lra.
  split; [lia|]. split; [reflexivity|]. intros _. reflexivity.
Qed.

(** C5. The two reference angles are the positions of the designated rows:
    'refpt' is the position of the chainring row at index 5, whose raw value
    is 47, and 'sprefpt' is the position of the cog row at index 3, whose
    raw value is 15 in the descending sequence 18, 17, 16, 15, ... *)
Theorem reference_angles :
  exists d er ec,
    yields calculate d /\
    nth_error (cr d) 5 = Some er /\ orig er = 47%Z /\
    refpt d = Some (rot er) /\
    nth_error (cg d) 3 = Some ec /\ orig ec = 15%Z /\
    sprefpt d = Some (rot ec) /\
    map orig (cr d) = [42; 43; 44; 45; 46; 47; 48; 49; 50; 51; 52]%Z /\
    map orig (cg d) = [18; 17; 16; 15; 14; 13; 12]%Z.
Proof.
  exists (scales 2.090), (cr_mark 47), (cg_mark 15).
  split; [apply calculate_yields|].
  cbn [cr cg refpt sprefpt scales].
  split; [rewrite nth_error_map, (nth_error_zup 42 52 5) by lia; reflexivity|].
  split; [reflexivity|]. split; [reflexivity|].
  split;
    [rewrite nth_error_map, (nth_error_zdown 18 12 3) by lia; reflexivity|].
  split; [reflexivity|]. split; [reflexivity|].
  split; rewrite map_orig by reflexivity; reflexivity.
Qed.

(** C6. The cog series decreases in position as the raw value grows: for
    cog rows of raw values [c1 < c2] in 12..18 the position of [c1] is
    greater than the position of [c2], each cog row having scaled angle
    [(- gimod) * ln raw] with the shared modulus, which is positive,
    negated. *)
Theorem cog_decreasing (c1 c2 : Z) :
  (12 <= c1)%Z -> (c1 < c2)%Z -> (c2 <= 18)%Z ->
  exists d m e1 e2,
    yields calculate d /\ yields (base_scaling d) m /\ 0 < m /\
    entry (cg d) c1 = Some e1 /\ entry (cg d) c2 = Some e2 /\
    scaled e1 = Some (- m * ln (IZR c1)) /\
    scaled e2 = Some (- m * ln (IZR c2)) /\
    rot e1 > rot e2.
Proof.
  intros H1 H12 H2.
  exists (scales 2.090), gimod, (cg_mark c1), (cg_mark c2).
  split; [apply calculate_yields|].
  split; [apply base_scaling_yields|].
  split; [apply gimod_pos|].
  split; [apply cg_entry; lia|].
  split; [apply cg_entry; lia|].
  cbn [scaled rot cg_mark set_rot set_scaled logval teeth_built].
  unfold cgmod.
  split; [f_equal; lra|]. split; [f_equal; lra|].
  assert (L : ln (IZR c1) < ln (IZR c2)).
  { apply ln_increasing; [apply IZR_lt; lia | apply IZR_lt; lia]. }
  pose proof gimod_pos as P.
  assert (Q : gimod * ln (IZR c1) < gimod * ln (IZR c2))
    by (apply Rmult_lt_compat_l; assumption).
  lra.
Qed.

Lemma cog_decreasing_witness :
  exists d m e1 e2,
    yields calculate d /\ yields (base_scaling d) m /\ 0 < m /\
    entry (cg d) 13 = Some e1 /\ entry (cg d) 17 = Some e2 /\
    scaled e1 = Some (- m * ln 13) /\
    scaled e2 = Some (- m * ln 17) /\
    rot e1 > rot e2.
Proof. apply (cog_decreasing 13 17); lia. Defined.

(** C7. Cadence placement: with the cadence offset the zero angle minus
    [-0.32 pi], every cadence row (raw value in 80..150) has corrected value
    [raw / 60], scaled angle [gimod * ln (raw / 60)] and position
    [scaled angle + cadence offset + sprefpt]. *)
Theorem cadence_placement (c : Z) :
  (80 <= c <= 150)%Z ->
  exists d m z sp e,
    yields calculate d /\ yields (base_scaling d) m /\
    yields (zero_angle d) z /\ sprefpt d = Some sp /\
    entry (cd d) c = Some e /\
    let cadence_offset := z - (-0.32 * PI) in
    corrected e = Some (IZR c / 60) /\
    logval e = ln (IZR c / 60) /\
    scaled e = Some (m * ln (IZR c / 60)) /\
    rot e = m * ln (IZR c / 60) + cadence_offset + sp.
Proof.
  intros Hc.
  exists (scales 2.090), gimod, gimin, (rot (cg_mark 15)), (cd_mark c).
  split; [apply calculate_yields|].
  split; [apply base_scaling_yields|].
  split; [apply zero_angle_yields|].
  split; [reflexivity|].
  split; [apply cd_entry, Hc|].
  cbn zeta.
  cbn [corrected logval scaled rot cd_mark set_rot set_scaled cd_built].
  replace (IZR c / 60) with (IZR c / 60.0) by lra.
  repeat apply conj; reflexivity.
Qed.

Lemma cadence_placement_witness :
  exists d m z sp e,
    yields calculate d /\ yields (base_scaling d) m /\
    yields (zero_angle d) z /\ sprefpt d = Some sp /\
    entry (cd d) 90 = Some e /\
    let cadence_offset := z - (-0.32 * PI) in
    corrected e = Some (90 / 60) /\
    logval e = ln (90 / 60) /\
    scaled e = Some (m * ln (90 / 60)) /\
    rot e = m * ln (90 / 60) + cadence_offset + sp.
Proof. apply (cadence_placement 90); lia. Defined.

(** C8, as stated. The speed scenario with the reference values 4.6499 and 1.5369 does not
    hold: 35 / (3.6 * 2.090) is more than 4.6517. *)
Lemma speed_35_not_reference : ~ speed_scenario 4.6499 1.5369.
Proof.
  intros (d & m & e & t & _ & _ & _ & _ & Et & Ht & _).
  subst t. unfold Rabs in Ht.
  destruct (Rcase_abs (35 / (3.6 * 2.090) - 4.6499)) as [L|L]; lra.
Qed.

(** C8, amended. With rollout 2.090 the speed row of 35 km/h has corrected
    value [35 / (3.6 * 2.090)], which is 4.6518 to four decimals, logval
    [ln] of it, which is 1.5373 to four decimals, and position
    [gimod * logval + 0.32 pi]. *)
Theorem speed_35 : speed_scenario 4.6518 1.5373.
Proof.
  exists (scales 2.090), gimod, (km_mark 2.090 35), (35 / (3.6 * 2.090)).
  pose proof ln_speed_35 as B.
  split; [apply calculate_yields|].
  split; [apply base_scaling_yields|].
  split; [apply km_entry; lia|].
  split; [reflexivity|]. split; [reflexivity|].
  split; [apply Rabs_le; lra|].
  cbn [logval rot km_mark set_rot set_scaled km_built].
  split; [reflexivity|].
  split; [apply Rabs_le; lra|].
  unfold kmmin. lra.
Qed.



(** C10. No gear inch row has raw value 60, the domain being 68..112: the
    test [g[0] != 60] holds for every row, so each of the 45 rows returned
    is placed at its scaled angle minus the zero angle, and the rows that
    were placed are the whole series. *)
Theorem gear_inch_all_placed :
  exists d z,
    yields calculate d /\ yields (zero_angle d) z /\
    List.length (gi d) = 45%nat /\
    (forall e, In e (gi d) ->
       orig e <> 60%Z /\ exists s, scaled e = Some s /\ rot e = s - z) /\
    filter (fun e => negb (orig e =? 60)%Z) (gi d) = gi d.
Proof.
  exists (scales 2.090), gimin.
  assert (A : forall e, In e (gi (scales 2.090)) -> orig e <> 60%Z).
  { intros e He. apply gi_in in He. destruct He as (k & Hk & ->).
    cbn [orig gi_mark gi_scaled set_rot set_scaled gi_built]. lia. }
  split; [apply calculate_yields|].
  split; [apply zero_angle_yields|].
  split; [cbn [gi scales]; rewrite length_map; reflexivity|].
  split.
  - intros e He. split; [apply A, He|].
    apply gi_in in He. destruct He as (k & Hk & ->).
    eexists. split; reflexivity.
  - apply forallb_filter_id. apply forallb_forall. intros e He.
    apply A in He. destruct (Z.eqb_spec (orig e) 60); [contradiction|].
    reflexivity.
Qed.

(** * Further properties of calculate *)

(** X1. With a rollout TYRE_C of zero, calculate raises ZeroDivisionError:
    the three tooth and gear inch lists are built, and the first speed row
    divides by [3.6 * TYRE_C]. *)
Theorem calculate_zero_rollout g :
  TYRE_C g = 0 -> calculate g = Raise ZeroDivisionError.
Proof.
  intros H. apply calculate_stops_at_speed, km_row_zero, H.
Qed.

Lemma calculate_zero_rollout_witness :
  calculate (Globals 0 "gcswheel") = Raise ZeroDivisionError.
Proof. apply calculate_zero_rollout. reflexivity. Defined.

(** X2. With a negative rollout TYRE_C, calculate raises ValueError: the
    first speed row takes the logarithm of a negative wheel speed. *)
Theorem calculate_negative_rollout g :
  TYRE_C g < 0 -> calculate g = Raise ValueError.
Proof.
  intros H. apply calculate_stops_at_speed, km_row_negative; [lia | exact H].
Qed.

Lemma calculate_negative_rollout_witness :
  calculate (Globals (-1) "gcswheel") = Raise ValueError.
Proof. apply calculate_negative_rollout. cbn [TYRE_C]. lra. Defined.

(** X3. For every positive rollout calculate returns and leaves the module's
    names alone.  Only the speed rows depend on the rollout: the other four
    lists and the two reference angles are those of rollout 2.090, the speed
    list has the same raw values, and the mark of each speed [k] in 35..55
    is turned back by [gimod * ln (TYRE_C / 2.090)] from where it is for
    rollout 2.090, so it moves for every other rollout. *)
Theorem rollout_turns_speed_scale g (k : Z) :
  0 < TYRE_C g -> (35 <= k <= 55)%Z ->
  exists d d0 m e e0,
    calculate g = Ok (d, g) /\ yields calculate d0 /\
    yields (base_scaling d0) m /\
    gi d = gi d0 /\ cr d = cr d0 /\ cg d = cg d0 /\ cd d = cd d0 /\
    refpt d = refpt d0 /\ sprefpt d = sprefpt d0 /\
    map orig (km d) = map orig (km d0) /\
    entry (km d) k = Some e /\ entry (km d0) k = Some e0 /\
    rot e = rot e0 - m * ln (TYRE_C g / 2.090) /\
    (TYRE_C g <> 2.090 -> rot e <> rot e0).
Proof.
  intros Ht Hk.
  exists (scales (TYRE_C g)), (scales 2.090), gimod,
    (km_mark (TYRE_C g) k), (km_mark 2.090 k).
  split; [apply calculate_returns, Ht|].
  split; [apply calculate_yields|].
  split; [apply base_scaling_yields|].
  do 6 (split; [reflexivity|]).
  split.
  { cbn [km scales]. rewrite !map_orig by reflexivity. reflexivity. }
  split; [apply km_entry, Hk|].
  split; [apply km_entry, Hk|].
  assert (Pk : 0 < IZR k) by (apply IZR_lt; lia).
  assert (F : rot (km_mark (TYRE_C g) k)
              = rot (km_mark 2.090 k) - gimod * ln (TYRE_C g / 2.090)).
  { cbn [rot km_mark set_rot set_scaled logval km_built].
    rewrite !ln_ratio by lra.
    rewrite !ln_mult by lra. lra. }
  split; [exact F|].
  intros N E. rewrite E in F. pose proof gimod_pos as Pm.
  assert (Z0 : gimod * ln (TYRE_C g / 2.090) = 0) by lra.
  apply Rmult_integral in Z0. destruct Z0 as [Z0|Z0]; [lra|].
  apply ln_zero_iff in Z0; [|apply Rdiv_lt_0_compat; lra].
  apply N. apply (Rmult_eq_compat_r 2.090) in Z0.
  unfold Rdiv in Z0. rewrite Rmult_assoc, Rinv_l in Z0 by lra. lra.
Qed.

Lemma rollout_turns_speed_scale_witness :
  exists d d0 m e e0,
    calculate (Globals 2.1 "gcswheel") = Ok (d, Globals 2.1 "gcswheel") /\
    yields calculate d0 /\
    yields (base_scaling d0) m /\
    gi d = gi d0 /\ cr d = cr d0 /\ cg d = cg d0 /\ cd d = cd d0 /\
    refpt d = refpt d0 /\ sprefpt d = sprefpt d0 /\
    map orig (km d) = map orig (km d0) /\
    entry (km d) 40 = Some e /\ entry (km d0) 40 = Some e0 /\
    rot e = rot e0 - m * ln (TYRE_C (Globals 2.1 "gcswheel") / 2.090) /\
    (TYRE_C (Globals 2.1 "gcswheel") <> 2.090 -> rot e <> rot e0).
Proof.
  apply (rollout_turns_speed_scale (Globals 2.1 "gcswheel") 40);
    [cbn [TYRE_C]; lra | lia].
Defined.

Lemma base_scaling_returns t g : base_scaling (scales t) g = Ok (gimod, g).
Proof. apply (base_scaling_run (scales t) gi_mark); reflexivity. Qed.

(** X4. Slide-rule alignment for [speed = rollout x cadence x gear ratio]:
    for a speed mark [k] km/h, a cadence mark [c] rpm and a gear inch mark
    [G], the speed mark is off the cadence mark plus the gear inch mark,
    taken from the GR reference, by [gimod] times the logarithm of
    [(k / 3.6) / (TYRE_C * (c / 60) * (G / 27))]; the marks line up exactly
    when the speed in m/s is rollout times cadence in Hz times gear ratio. *)
Theorem speed_alignment g (k c G : Z) :
  0 < TYRE_C g ->
  (35 <= k <= 55)%Z -> (80 <= c <= 150)%Z -> (68 <= G <= 112)%Z ->
  exists d m ek ec eg sp,
    calculate g = Ok (d, g) /\ base_scaling d g = Ok (m, g) /\
    entry (km d) k = Some ek /\ entry (cd d) c = Some ec /\
    entry (gi d) G = Some eg /\ sprefpt d = Some sp /\
    rot ek - (rot ec + rot eg - sp)
    = m * ln (IZR k / 3.6 / (TYRE_C g * (IZR c / 60) * (IZR G / 27))) /\
    (rot ek = rot ec + rot eg - sp <->
     IZR k / 3.6 = TYRE_C g * (IZR c / 60) * (IZR G / 27)).
Proof.
  intros Ht Hk Hc HG.
  exists (scales (TYRE_C g)), gimod, (km_mark (TYRE_C g) k), (cd_mark c),
    (gi_mark G), (rot (cg_mark 15)).
  split; [apply calculate_returns, Ht|].
  split; [apply base_scaling_returns|].
  split; [apply km_entry, Hk|].
  split; [apply cd_entry, Hc|].
  split; [apply gi_entry, HG|].
  split; [reflexivity|].
  assert (Pk : 0 < IZR k) by (apply IZR_lt; lia).
  assert (Pc : 0 < IZR c) by (apply IZR_lt; lia).
  assert (PG : 0 < IZR G) by (apply IZR_lt; lia).
  set (rhs := TYRE_C g * (IZR c / 60) * (IZR G / 27)).
  assert (Pr : 0 < rhs).
  { unfold rhs. apply Rmult_lt_0_compat; [apply Rmult_lt_0_compat|]; lra. }
  assert (F : rot (km_mark (TYRE_C g) k)
              - (rot (cd_mark c) + rot (gi_mark G) - rot (cg_mark 15))
              = gimod * ln (IZR k / 3.6 / rhs)).
  { rewrite (ln_ratio (IZR k / 3.6)) by lra. unfold rhs.
    rewrite !ln_mult by (try apply Rmult_lt_0_compat; lra).
    cbn [rot km_mark cd_mark gi_mark gi_scaled set_rot set_scaled logval
         km_built cd_built gi_built].
    replace (IZR k / (3.6 * TYRE_C g)) with (IZR k / 3.6 / TYRE_C g)
      by (field; lra).
    replace (IZR c / 60.0) with (IZR c / 60) by lra.
    replace (IZR G / 27.0) with (IZR G / 27) by lra.
    rewrite (ln_ratio (IZR k / 3.6) (TYRE_C g)) by lra.
    unfold cadmin. lra. }
  split; [exact F|].
  pose proof gimod_pos as Pm.
  assert (Pq : 0 < IZR k / 3.6 / rhs) by (apply Rdiv_lt_0_compat; lra).
  split.
  - intros E.
    assert (Z0 : gimod * ln (IZR k / 3.6 / rhs) = 0) by lra.
    apply Rmult_integral in Z0. destruct Z0 as [Z0|Z0]; [lra|].
    apply ln_zero_iff in Z0; [|exact Pq].
    apply (Rmult_eq_compat_r rhs) in Z0.
    unfold Rdiv at 1 in Z0. rewrite Rmult_assoc, Rinv_l in Z0 by lra. lra.
  - intros E. rewrite E in F.
    replace (rhs / rhs) with 1 in F by (field; lra).
    rewrite ln_1 in F. lra.
Qed.

Lemma speed_alignment_witness :
  exists d m ek ec eg sp,
    calculate module_globals = Ok (d, module_globals) /\
    base_scaling d module_globals = Ok (m, module_globals) /\
    entry (km d) 40 = Some ek /\ entry (cd d) 100 = Some ec /\
    entry (gi d) 90 = Some eg /\ sprefpt d = Some sp /\
    rot ek - (rot ec + rot eg - sp)
    = m * ln (40 / 3.6 / (TYRE_C module_globals * (100 / 60) * (90 / 27))) /\
    (rot ek = rot ec + rot eg - sp <->
     40 / 3.6 = TYRE_C module_globals * (100 / 60) * (90 / 27)).
Proof.
  apply (speed_alignment module_globals 40 100 90);
    [cbn [TYRE_C module_globals]; lra | lia | lia | lia].
Defined.

Lemma nth_error_zup_inv {A} (f : Z -> A) lo hi i r :
  nth_error (map f (zup lo hi)) i = Some r ->
  (lo + Z.of_nat i <= hi)%Z /\ r = f (lo + Z.of_nat i)%Z.
Proof.
  unfold zup. rewrite !nth_error_map, nth_error_seq.
  destruct (Nat.ltb_spec i (Z.to_nat (hi + 1 - lo))) as [L|L];
    [|discriminate].
  cbn [option_map Nat.add]. intros E. split; [lia | congruence].
Qed.

Lemma nth_error_zdown_inv {A} (f : Z -> A) hi lo i r :
  nth_error (map f (zdown hi lo)) i = Some r ->
  (lo <= hi - Z.of_nat i)%Z /\ r = f (hi - Z.of_nat i)%Z.
Proof.
  unfold zdown. rewrite !nth_error_map, nth_error_seq.
  destruct (Nat.ltb_spec i (Z.to_nat (hi + 1 - lo))) as [L|L];
    [|discriminate].
  cbn [option_map Nat.add]. intros E. split; [lia | congruence].
Qed.

Lemma increasing_zup (f : Z -> row) lo hi :
  (forall a b, (lo <= a)%Z -> (a < b)%Z -> (b <= hi)%Z ->
               rot (f a) < rot (f b)) ->
  increasing_along (map f (zup lo hi)).
Proof.
  intros H i j ri rj Hij Hi Hj.
  apply nth_error_zup_inv in Hi. apply nth_error_zup_inv in Hj.
  destruct Hi as [Bi ->]. destruct Hj as [Bj ->]. apply H; lia.
Qed.

Lemma increasing_zdown (f : Z -> row) hi lo :
  (forall a b, (lo <= a)%Z -> (a < b)%Z -> (b <= hi)%Z ->
               rot (f b) < rot (f a)) ->
  increasing_along (map f (zdown hi lo)).
Proof.
  intros H i j ri rj Hij Hi Hj.
  apply nth_error_zdown_inv in Hi. apply nth_error_zdown_inv in Hj.
  destruct Hi as [Bi ->]. destruct Hj as [Bj ->]. apply H; lia.
Qed.

Lemma scaled_ln_lt x y : 0 < x -> x < y -> gimod * ln x < gimod * ln y.
Proof.
  intros Hx Hxy. apply Rmult_lt_compat_l; [apply gimod_pos|].
  apply ln_increasing; assumption.
Qed.

(** X5. In each of the five lists calculate returns the positions grow
    strictly from one row to the next, the cog list included, which runs
    from 18 teeth down to 12: the first and last row of a list hold its
    least and greatest angle. *)
Theorem positions_increase g :
  0 < TYRE_C g ->
  exists d,
    calculate g = Ok (d, g) /\
    increasing_along (gi d) /\ increasing_along (cr d) /\
    increasing_along (cg d) /\ increasing_along (km d) /\
    increasing_along (cd d).
Proof.
  intros Ht. exists (scales (TYRE_C g)).
  split; [apply calculate_returns, Ht|].
  cbn [gi cr cg km cd scales].
  split; [|split; [|split; [|split]]].
  - apply increasing_zup. intros a b La Lab Lb.
    cbn [rot gi_mark gi_scaled set_rot set_scaled logval gi_built].
    apply IZR_lt in Lab. assert (0 < IZR a) by (apply IZR_lt; lia).
    pose proof (scaled_ln_lt (IZR a / 27.0) (IZR b / 27.0)). lra.
  - apply increasing_zup. intros a b La Lab Lb.
    cbn [rot cr_mark set_rot set_scaled logval teeth_built].
    apply IZR_lt in Lab. assert (0 < IZR a) by (apply IZR_lt; lia).
    pose proof (scaled_ln_lt (IZR a) (IZR b)). lra.
  - apply increasing_zdown. intros a b La Lab Lb.
    cbn [rot cg_mark set_rot set_scaled logval teeth_built]. unfold cgmod.
    apply IZR_lt in Lab. assert (0 < IZR a) by (apply IZR_lt; lia).
    pose proof (scaled_ln_lt (IZR a) (IZR b)). lra.
  - apply increasing_zup. intros a b La Lab Lb.
    cbn [rot km_mark set_rot set_scaled logval km_built].
    apply IZR_lt in Lab. assert (0 < IZR a) by (apply IZR_lt; lia).
    assert (P : 0 < / (3.6 * TYRE_C g)) by (apply Rinv_0_lt_compat; lra).
    assert (Q : IZR a / (3.6 * TYRE_C g) < IZR b / (3.6 * TYRE_C g))
      by (apply Rmult_lt_compat_r; assumption).
    assert (0 < IZR a / (3.6 * TYRE_C g))
      by (apply Rdiv_lt_0_compat; lra).
    pose proof (scaled_ln_lt _ _ H0 Q). lra.
  - apply increasing_zup. intros a b La Lab Lb.
    cbn [rot cd_mark set_rot set_scaled logval cd_built].
    apply IZR_lt in Lab. assert (0 < IZR a) by (apply IZR_lt; lia).
    pose proof (scaled_ln_lt (IZR a / 60.0) (IZR b / 60.0)). lra.
Qed.

Lemma positions_increase_witness :
  exists d,
    calculate module_globals = Ok (d, module_globals) /\
    increasing_along (gi d) /\ increasing_along (cr d) /\
    increasing_along (cg d) /\ increasing_along (km d) /\
    increasing_along (cd d).
Proof.
  apply (positions_increase module_globals).
  cbn [TYRE_C module_globals]. lra.
Defined.

(** * The drawing *)

Section DrawingFacts.

Variable te : context -> string -> extents.


Lemma nesting_app ops1 : forall ops2 k,
  nesting (ops1 ++ ops2) k
  = match nesting ops1 k with
    | Some k1 => nesting ops2 k1
    | None => None
    end.
Proof.
  induction ops1 as [|o ops1 IH]; intros ops2 k; [reflexivity|].
  destruct o; cbn [nesting app]; try apply IH.
  destruct k; [reflexivity | apply IH].
Qed.

Lemma balanced_nil : balanced [].
Proof. intros k. reflexivity. Qed.

Lemma balanced_app ops1 ops2 :
  balanced ops1 -> balanced ops2 -> balanced (ops1 ++ ops2).
Proof.
  intros H1 H2 k. rewrite nesting_app, H1. apply H2.
Qed.

Lemma balanced_bracket ops :
  balanced ops -> balanced (cairo.save :: ops ++ [cairo.restore]).
Proof.
  intros H k. cbn [nesting]. rewrite nesting_app, H. reflexivity.
Qed.

Lemma rotations_app a b : rotations (a ++ b) = rotations a ++ rotations b.
Proof. apply flat_map_app. Qed.

Lemma texts_app a b : texts (a ++ b) = texts a ++ texts b.
Proof. apply flat_map_app. Qed.

(** *** neutral *)

Lemma neutral_ret {A} (a : A) : neutral (dret a).
Proof.
  intros c. exists []. split; [symmetry; apply app_nil_r | apply balanced_nil].
Qed.

Lemma neutral_raise {A} e : neutral (@draise A e).
Proof.
  intros c. exists []. split; [symmetry; apply app_nil_r | apply balanced_nil].
Qed.

Lemma neutral_bind {A B} (m : Draw A) (k : A -> Draw B) :
  neutral m -> (forall a, neutral (k a)) -> neutral (dbind m k).
Proof.
  intros Hm Hk c. destruct (Hm c) as (ops1 & E1 & B1).
  unfold dbind. destruct (m c) as [c1 [a|e]]; cbn [fst] in E1; subst c1.
  - destruct (Hk a (c ++ ops1)) as (ops2 & E2 & B2).
    exists (ops1 ++ ops2). rewrite E2, app_assoc.
    split; [reflexivity | apply balanced_app; assumption].
  - exists ops1. split; [reflexivity | exact B1].
Qed.

Lemma neutral_call o :
  o <> cairo.save -> o <> cairo.restore -> neutral (call o).
Proof.
  intros Hs Hr c. exists [o]. split; [reflexivity|].
  intros k. destruct o; try reflexivity; contradiction.
Qed.

Lemma neutral_item {A} (l : list A) n : neutral (item l n).
Proof.
  unfold item. destruct (nth_error l n);
    [apply neutral_ret | apply neutral_raise].
Qed.

Lemma neutral_last_item {A} (l : list A) : neutral (last_item l).
Proof.
  unfold last_item. destruct (rev l);
    [apply neutral_raise | apply neutral_ret].
Qed.

Lemma neutral_key v : neutral (key v).
Proof.
  unfold key. destruct v; [apply neutral_ret | apply neutral_raise].
Qed.

Lemma neutral_for_rows body l :
  (forall r, neutral (body r)) -> neutral (for_rows body l).
Proof.
  intros H. induction l as [|r l IH]; [apply neutral_ret|].
  cbn [for_rows]. apply neutral_bind; [apply H | intros _; exact IH].
Qed.

(** *** what the three small functions do *)

Lemma place_text_run x y msg c :
  place_text te x y msg c = (c ++ text_calls te c x msg, Ok tt).
Proof.
  unfold place_text, text_calls. destruct (nonempty msg).
  - unfold dbind, call, text_extents.
    rewrite <- !app_assoc. cbn [app].
    destruct (te (c ++ [cairo.save; cairo.set_font_size 0.02])
                msg) as [[[xb yb] w] h].
    cbn [snd]. rewrite <- !app_assoc. reflexivity.
  - unfold dret. rewrite app_nil_r. reflexivity.
Qed.

Lemma scalemark_run a x1 x2 lbl right c :
  scalemark te a x1 x2 lbl right c
  = (c ++ mark_calls te c a x1 x2 lbl right, Ok tt).
Proof.
  unfold scalemark, mark_calls. cbv [dbind call].
  rewrite <- !app_assoc. cbn [app].
  destruct right; rewrite place_text_run; rewrite <- !app_assoc; reflexivity.
Qed.

Lemma coverbox_run a x1 x2 c :
  coverbox a x1 x2 c = (c ++ box_calls a x1 x2, Ok tt).
Proof.
  unfold coverbox, box_calls. cbv [dbind call].
  rewrite <- !app_assoc. reflexivity.
Qed.

Lemma balanced_mark_calls c a x1 x2 lbl right :
  balanced (mark_calls te c a x1 x2 lbl right).
Proof.
  intros k. unfold mark_calls, text_calls.
  destruct (nonempty lbl); reflexivity.
Qed.

Lemma neutral_scalemark a x1 x2 lbl right :
  neutral (scalemark te a x1 x2 lbl right).
Proof.
  intros c. exists (mark_calls te c a x1 x2 lbl right).
  rewrite scalemark_run. split; [reflexivity | apply balanced_mark_calls].
Qed.

Lemma neutral_coverbox a x1 x2 : neutral (coverbox a x1 x2).
Proof.
  intros c. exists (box_calls a x1 x2). rewrite coverbox_run.
  split; [reflexivity | intros k; reflexivity].
Qed.

(** *** settled *)

Lemma settled_bind {A B} (m : Draw A) (k : A -> Draw B) r1 r2 :
  settled m r1 -> (forall a, settled (k a) (r2 a)) ->
  settled (dbind m k)
    (match r1 with Ok a => r2 a | Raise e => Raise e end).
Proof.
  intros Hm Hk c. specialize (Hm c). unfold dbind.
  destruct (m c) as [c1 [a|e]]; cbn [snd] in Hm; subst r1;
    [apply Hk | reflexivity].
Qed.

Lemma settled_seq {A} (m1 : Draw A) (m2 : Draw unit) r1 r2 :
  settled m1 r1 -> settled m2 r2 -> settled (m1 ;;; m2) (then_ r1 r2).
Proof.
  intros H1 H2. apply (settled_bind m1 (fun _ => m2) r1 (fun _ => r2));
    [exact H1 | intros _; exact H2].
Qed.

Lemma settled_call o : settled (call o) (Ok tt).
Proof. intros c. reflexivity. Qed.

Lemma settled_ret {A} (a : A) : settled (dret a) (Ok a).
Proof. intros c. reflexivity. Qed.

Lemma settled_scalemark a x1 x2 lbl right :
  settled (scalemark te a x1 x2 lbl right) (Ok tt).
Proof. intros c. rewrite scalemark_run. reflexivity. Qed.

Lemma settled_coverbox a x1 x2 : settled (coverbox a x1 x2) (Ok tt).
Proof. intros c. rewrite coverbox_run. reflexivity. Qed.

Lemma settled_for_rows body l :
  (forall r, settled (body r) (Ok tt)) -> settled (for_rows body l) (Ok tt).
Proof.
  intros H. induction l as [|r l IH]; [apply settled_ret|].
  cbn [for_rows]. apply (settled_seq _ _ (Ok tt) (Ok tt)); [apply H | exact IH].
Qed.

Lemma last_item_cons {A} (a : A) l :
  exists z, last_item (a :: l) = dret z.
Proof.
  unfold last_item. destruct (rev (a :: l)) as [|z rest] eqn:E.
  - apply (f_equal (@List.length A)) in E. rewrite length_rev in E.
    discriminate.
  - exists z. reflexivity.
Qed.

Lemma scale_arc_cons radius a l :
  exists z,
    scale_arc radius (a :: l)
    = call cairo.new_sub_path ;;;
      call (cairo.arc 0.0 0.0 radius (rot a) (rot z)).
Proof.
  destruct (last_item_cons a l) as [z E]. exists z.
  unfold scale_arc, item. cbn [nth_error]. rewrite E. reflexivity.
Qed.

Lemma settled_scale_arc_nil radius :
  settled (scale_arc radius []) (Raise IndexError).
Proof. intros c. reflexivity. Qed.

Lemma settled_scale_arc_cons radius a l :
  settled (scale_arc radius (a :: l)) (Ok tt).
Proof.
  destruct (scale_arc_cons radius a l) as [z ->]. intros c. reflexivity.
Qed.

(** *** shows *)

Lemma shows_bind {A B} (m : Draw A) (k : A -> Draw B) a rs1 ts1 rs2 ts2 :
  settled m (Ok a) -> shows m rs1 ts1 -> shows (k a) rs2 ts2 ->
  shows (dbind m k) (rs1 ++ rs2) (ts1 ++ ts2).
Proof.
  intros Hs Hm Hk c. specialize (Hs c). destruct (Hm c) as [R1 T1].
  unfold dbind. destruct (m c) as [c1 [a1|e]]; cbn [fst snd] in *;
    [|discriminate].
  injection Hs as ->. destruct (Hk c1) as [R2 T2].
  rewrite R2, T2, R1, T1, !app_assoc. split; reflexivity.
Qed.

Lemma draws_seq (m1 m2 : Draw unit) rs1 ts1 rs2 ts2 :
  draws m1 rs1 ts1 -> draws m2 rs2 ts2 ->
  draws (m1 ;;; m2) (rs1 ++ rs2) (ts1 ++ ts2).
Proof.
  intros [S1 H1] [S2 H2]. split.
  - apply (settled_seq m1 m2 (Ok tt) (Ok tt)); assumption.
  - apply (shows_bind m1 (fun _ => m2) tt); assumption.
Qed.

Lemma draws_eq (m : Draw unit) rs ts rs1 ts1 :
  draws m rs1 ts1 -> rs1 = rs -> ts1 = ts -> draws m rs ts.
Proof. intros H <- <-. exact H. Qed.

Lemma draws_ret : draws (dret tt) [] [].
Proof.
  split; [apply settled_ret|]. intros c. cbn [fst dret].
  rewrite !app_nil_r. split; reflexivity.
Qed.

Lemma draws_call o :
  rotations [o] = [] -> texts [o] = [] -> draws (call o) [] [].
Proof.
  intros Hr Ht. split; [apply settled_call|]. intros c. cbn [fst call].
  rewrite rotations_app, texts_app, Hr, Ht. split; reflexivity.
Qed.

Lemma draws_scalemark a x1 x2 lbl right :
  draws (scalemark te a x1 x2 lbl right) [a]
    (if nonempty lbl then [lbl] else []).
Proof.
  split; [apply settled_scalemark|]. intros c. rewrite scalemark_run.
  cbn [fst]. rewrite rotations_app, texts_app.
  unfold mark_calls, text_calls. destruct (nonempty lbl); split; reflexivity.
Qed.

Lemma draws_coverbox a x1 x2 : draws (coverbox a x1 x2) [a] [].
Proof.
  split; [apply settled_coverbox|]. intros c. rewrite coverbox_run.
  cbn [fst]. rewrite rotations_app, texts_app. split; reflexivity.
Qed.

Lemma draws_for_rows body (fr : row -> list R) (ft : row -> list string) l :
  (forall r, draws (body r) (fr r) (ft r)) ->
  draws (for_rows body l) (flat_map fr l) (flat_map ft l).
Proof.
  intros H. induction l as [|r l IH]; [apply draws_ret|].
  cbn [for_rows flat_map]. apply draws_seq; [apply H | exact IH].
Qed.

Lemma draws_scale_arc radius a l : draws (scale_arc radius (a :: l)) [] [].
Proof.
  destruct (scale_arc_cons radius a l) as [z ->].
  apply (draws_seq _ _ [] [] [] []); apply draws_call; reflexivity.
Qed.

(** ** The labels are never empty *)

Lemma nonempty_app_r a b : nonempty b = true -> nonempty (a ++ b) = true.
Proof. intros H. destruct a; [exact H | reflexivity]. Qed.

Lemma nonempty_format_int n : nonempty (format_int n) = true.
Proof.
  unfold format_int. destruct (Z.to_int n) as [u|u]; [|reflexivity].
  destruct u; reflexivity.
Qed.

Lemma flat_map_rot (l : list row) : flat_map (fun r => [rot r]) l = map rot l.
Proof.
  induction l as [|r l IH]; [reflexivity|]. cbn [flat_map map app].
  rewrite IH. reflexivity.
Qed.

Lemma flat_map_pick (p : row -> bool) (f : Z -> string) l :
  flat_map (fun r => if p r then [f (orig r)] else []) l
  = map f (map orig (filter p l)).
Proof.
  induction l as [|r l IH]; [reflexivity|]. cbn [flat_map filter].
  rewrite IH. destruct (p r); reflexivity.
Qed.

(** ** The blocks of drawpage *)

Ltac neutral_steps :=
  repeat match goal with
    | |- neutral (dbind _ _) => apply neutral_bind; [|intros]
    | |- neutral (call _) => apply neutral_call; discriminate
    | |- neutral (dret _) => apply neutral_ret
    | |- neutral (item _ _) => apply neutral_item
    | |- neutral (last_item _) => apply neutral_last_item
    | |- neutral (key _) => apply neutral_key
    | |- neutral (scalemark _ _ _ _ _ _) => apply neutral_scalemark
    | |- neutral (coverbox _ _ _) => apply neutral_coverbox
    | |- neutral (for_rows _ _) => apply neutral_for_rows; intros
    | |- neutral (if ?b then _ else _) => destruct b
    end.

Lemma neutral_marks_part layers d :
  neutral (call (cairo.set_line_width 0.002) ;;;
           gi_marks te layers d ;;;
           cr_marks te layers d ;;;
           cg_marks te layers d ;;;
           call (cairo.set_source_rgb 0.0 0.0 1.0) ;;;
           top_marks te layers d ;;;
           km_marks te layers d).
Proof.
  unfold gi_marks, cr_marks, cg_marks, top_marks, km_marks, scale_arc.
  neutral_steps.
Qed.

Lemma neutral_drawpage layers d : neutral (drawpage te layers d).
Proof.
  unfold drawpage. apply neutral_bind; [|intros _].
  { unfold page_style. neutral_steps. }
  apply neutral_bind; [|intros _].
  { unfold cuts. neutral_steps. }
  apply neutral_bind; [|intros _].
  { unfold centrepoint. neutral_steps. }
  apply neutral_marks_part.
Qed.

(** *** when a block returns *)

Lemma settled_raise_bind {A B} (m : Draw A) (k : A -> Draw B) e :
  settled m (Raise e) -> settled (dbind m k) (Raise e).
Proof.
  intros H c. specialize (H c). unfold dbind.
  destruct (m c) as [c1 [a|e1]]; cbn [snd] in *; [discriminate|].
  injection H as ->. reflexivity.
Qed.

Lemma checked_returns m : settled m (Ok tt) -> checked m True.
Proof.
  intros H. exists (Ok tt). split; [exact H|].
  split; [tauto | intros e E; discriminate].
Qed.

Lemma checked_raises m e (cond : Prop) :
  settled m (Raise e) -> ~ cond -> e = IndexError \/ e = KeyError ->
  checked m cond.
Proof.
  intros H N K. exists (Raise e). split; [exact H|].
  split; [split; [discriminate | tauto] | intros e1 E; congruence].
Qed.

Lemma checked_iff m (c1 c2 : Prop) : checked m c1 -> (c1 <-> c2) -> checked m c2.
Proof.
  intros (r & S & I & E) H. exists r. split; [exact S|].
  split; [tauto | exact E].
Qed.

Lemma checked_seq m1 m2 (c1 c2 : Prop) :
  checked m1 c1 -> checked m2 c2 -> checked (m1 ;;; m2) (c1 /\ c2).
Proof.
  intros (r1 & S1 & I1 & E1) (r2 & S2 & I2 & E2).
  exists (then_ r1 r2). split; [apply settled_seq; assumption|].
  destruct r1 as [[]|e1]; cbn [then_].
  - split; [tauto | exact E2].
  - split; [split; [discriminate|]| intros e E; apply E1; exact E].
    intros [C1 _]. apply I1 in C1. discriminate.
Qed.

Lemma settled_mark_loop (body : row -> Draw unit) l :
  (forall r, exists a x1 x2 lbl right, body r = scalemark te a x1 x2 lbl right)
  -> settled (for_rows body l) (Ok tt).
Proof.
  intros H. apply settled_for_rows. intros r.
  destruct (H r) as (a & x1 & x2 & lbl & right & ->).
  apply settled_scalemark.
Qed.

Ltac is_mark :=
  intros r; cbv beta;
  match goal with
  | |- context [if ?b then _ else _] => destruct b
  | _ => idtac
  end; repeat eexists.

Lemma checked_gi_marks layers d :
  checked (gi_marks te layers d) (layer_in 3 layers = true -> gi d <> []).
Proof.
  unfold gi_marks. destruct (layer_in 3 layers).
  - destruct (gi d) as [|a l].
    + apply (checked_raises _ IndexError); [|tauto | left; reflexivity].
      apply settled_raise_bind, settled_scale_arc_nil.
    + apply (checked_iff _ True); [|split; [intros; discriminate | tauto]].
      apply checked_returns.
      apply (settled_seq _ _ (Ok tt) (Ok tt));
        [apply settled_scale_arc_cons|].
      apply (settled_seq _ _ (Ok tt) (Ok tt)); [apply settled_call|].
      apply settled_mark_loop. is_mark.
  - apply (checked_iff _ True); [|split; [intros; discriminate | tauto]].
    apply checked_returns, settled_ret.
Qed.

Lemma checked_cr_marks layers d :
  checked (cr_marks te layers d) (layer_in 3 layers = true -> cr d <> []).
Proof.
  unfold cr_marks. destruct (layer_in 3 layers).
  - destruct (cr d) as [|a l].
    + apply (checked_raises _ IndexError); [|tauto | left; reflexivity].
      apply settled_raise_bind, settled_scale_arc_nil.
    + apply (checked_iff _ True); [|split; [intros; discriminate | tauto]].
      apply checked_returns.
      apply (settled_seq _ _ (Ok tt) (Ok tt));
        [apply settled_scale_arc_cons|].
      apply (settled_seq _ _ (Ok tt) (Ok tt)); [apply settled_call|].
      apply settled_mark_loop. is_mark.
  - apply (checked_iff _ True); [|split; [intros; discriminate | tauto]].
    apply checked_returns, settled_ret.
Qed.

Lemma checked_km_marks layers d :
  checked (km_marks te layers d) (layer_in 3 layers = true -> km d <> []).
Proof.
  unfold km_marks. destruct (layer_in 3 layers).
  - destruct (km d) as [|a l].
    + apply (checked_raises _ IndexError); [|tauto | left; reflexivity].
      apply settled_raise_bind, settled_scale_arc_nil.
    + apply (checked_iff _ True); [|split; [intros; discriminate | tauto]].
      apply checked_returns.
      apply (settled_seq _ _ (Ok tt) (Ok tt));
        [apply settled_scale_arc_cons|].
      apply settled_mark_loop. is_mark.
  - apply (checked_iff _ True); [|split; [intros; discriminate | tauto]].
    apply checked_returns, settled_ret.
Qed.

Lemma checked_cg_marks layers d :
  checked (cg_marks te layers d)
    (layer_in 2 layers = true -> cg d <> [] /\ refpt d <> None).
Proof.
  unfold cg_marks. destruct (layer_in 2 layers).
  - destruct (cg d) as [|a l].
    + apply (checked_raises _ IndexError); [|tauto | left; reflexivity].
      apply settled_raise_bind, settled_scale_arc_nil.
    + destruct (refpt d) as [x|].
      * apply (checked_iff _ True);
          [|split; [intros; split; discriminate | tauto]].
        apply checked_returns.
        apply (settled_seq _ _ (Ok tt) (Ok tt));
          [apply settled_scale_arc_cons|].
        apply (settled_seq _ _ (Ok tt) (Ok tt)); [apply settled_call|].
        apply (settled_bind (key (Some x)) _ (Ok x) (fun _ => Ok tt));
          [apply settled_ret|intros x1].
        apply (settled_seq _ _ (Ok tt) (Ok tt)); [apply settled_scalemark|].
        apply settled_mark_loop. is_mark.
      * apply (checked_raises _ KeyError); [|tauto | right; reflexivity].
        intros c.
        rewrite (settled_seq _ _ (Ok tt) (Raise KeyError)
                   (settled_scale_arc_cons _ a l)); [reflexivity|].
        apply (settled_seq _ _ (Ok tt) (Raise KeyError));
          [apply settled_call|].
        apply settled_raise_bind. intros c1. reflexivity.
  - apply (checked_iff _ True); [|split; [intros; discriminate | tauto]].
    apply checked_returns, settled_ret.
Qed.

Lemma checked_top_marks layers d :
  checked (top_marks te layers d)
    (layer_in 1 layers = true -> sprefpt d <> None /\ cd d <> []).
Proof.
  unfold top_marks. destruct (layer_in 1 layers).
  - destruct (sprefpt d) as [x|].
    + destruct (cd d) as [|a l].
      * apply (checked_raises _ IndexError); [|tauto | left; reflexivity].
        intros c.
        rewrite (settled_bind (key (Some x)) _ (Ok x)
                   (fun _ => Raise IndexError) (settled_ret x));
          [reflexivity|intros x1].
        apply (settled_seq _ _ (Ok tt) (Raise IndexError));
          [apply settled_scalemark|].
        apply (settled_bind (key (Some x)) _ (Ok x)
                 (fun _ => Raise IndexError) (settled_ret x)).
        intros x2.
        apply (settled_seq _ _ (Ok tt) (Raise IndexError));
          [apply settled_coverbox|].
        apply settled_raise_bind, settled_scale_arc_nil.
      * apply (checked_iff _ True);
          [|split; [intros; split; discriminate | tauto]].
        apply checked_returns.
        apply (settled_bind (key (Some x)) _ (Ok x) (fun _ => Ok tt));
          [apply settled_ret|intros x1].
        apply (settled_seq _ _ (Ok tt) (Ok tt)); [apply settled_scalemark|].
        apply (settled_bind (key (Some x)) _ (Ok x) (fun _ => Ok tt));
          [apply settled_ret|intros x2].
        apply (settled_seq _ _ (Ok tt) (Ok tt)); [apply settled_coverbox|].
        apply (settled_seq _ _ (Ok tt) (Ok tt));
          [apply settled_scale_arc_cons|].
        apply settled_mark_loop. is_mark.
    + apply (checked_raises _ KeyError); [|tauto | right; reflexivity].
      apply settled_raise_bind. intros c. reflexivity.
  - apply (checked_iff _ True); [|split; [intros; discriminate | tauto]].
    apply checked_returns, settled_ret.
Qed.

Lemma settled_calls m : neutral m -> (forall c, snd (m c) = Ok tt) ->
  settled m (Ok tt).
Proof. intros _ H. exact H. Qed.

Lemma checked_drawpage layers d :
  checked (drawpage te layers d) (drawable layers d).
Proof.
  unfold drawpage.
  assert (S1 : settled page_style (Ok tt)) by (intros c; reflexivity).
  assert (S2 : settled (cuts layers) (Ok tt)).
  { intros c. unfold cuts.
    destruct (layer_in 2 layers), (layer_in 1 layers || layer_in 3 layers)%bool;
      reflexivity. }
  assert (S3 : settled centrepoint (Ok tt)) by (intros c; reflexivity).
  eapply checked_iff.
  - apply checked_seq; [apply checked_returns, S1|].
    apply checked_seq; [apply checked_returns, S2|].
    apply checked_seq; [apply checked_returns, S3|].
    apply checked_seq; [apply checked_returns, settled_call|].
    apply checked_seq; [apply checked_gi_marks|].
    apply checked_seq; [apply checked_cr_marks|].
    apply checked_seq; [apply checked_cg_marks|].
    apply checked_seq; [apply checked_returns, settled_call|].
    apply checked_seq; [apply checked_top_marks | apply checked_km_marks].
  - unfold drawable. tauto.
Qed.

(** *** what a block shows *)

Lemma flat_map_single {A B} (f : A -> B) l :
  flat_map (fun r => [f r]) l = map f l.
Proof.
  induction l as [|r l IH]; [reflexivity|]. cbn [flat_map map app].
  rewrite IH. reflexivity.
Qed.

Lemma draws_key x (k : R -> Draw unit) rs ts :
  draws (k x) rs ts -> draws (dbind (key (Some x)) k) rs ts.
Proof. intros H. exact H. Qed.

Ltac plain :=
  repeat match goal with
    | |- draws (dbind _ _) [] [] => apply (draws_seq _ _ [] [] [] [])
    | |- draws (call _) [] [] => apply draws_call; reflexivity
    | |- draws (dret _) [] [] => apply draws_ret
    | |- draws (if ?b then _ else _) [] [] => destruct b
    end.

Lemma draws_mark a x1 x2 lbl right :
  nonempty lbl = true -> draws (scalemark te a x1 x2 lbl right) [a] [lbl].
Proof.
  intros H. eapply draws_eq; [apply draws_scalemark | reflexivity|].
  rewrite H. reflexivity.
Qed.

Lemma draws_tick a x1 x2 right :
  draws (scalemark te a x1 x2 "" right) [a] [].
Proof. apply (draws_scalemark a x1 x2 "" right). Qed.

Lemma draws_gi_marks layers d :
  (layer_in 3 layers = true -> gi d <> []) ->
  draws (gi_marks te layers d)
    (if layer_in 3 layers then map rot (gi d) else [])
    (if layer_in 3 layers then
       map (fun n => (format_int n ++ inch_sign)%string) (multiples 2 (gi d))
     else []).
Proof.
  intros H. unfold gi_marks. destruct (layer_in 3 layers); [|apply draws_ret].
  destruct (gi d) as [|a l]; [exfalso; apply H; reflexivity|].
  eapply draws_eq.
  - apply draws_seq; [apply draws_scale_arc|].
    apply draws_seq; [apply draws_call; reflexivity|].
    apply (draws_for_rows _ (fun g => [rot g])
             (fun g => if (orig g mod 2 =? 0)%Z
                       then [(format_int (orig g) ++ inch_sign)%string]
                       else [])).
    intros g. cbv beta. destruct (orig g mod 2 =? 0)%Z.
    + apply draws_mark, nonempty_app_r. reflexivity.
    + apply draws_tick.
  - cbn [app]. apply flat_map_single.
  - cbn [app]. unfold multiples.
    apply (flat_map_pick (fun g => (orig g mod 2 =? 0)%Z)
             (fun n => (format_int n ++ inch_sign)%string)).
Qed.

Lemma draws_cr_marks layers d :
  (layer_in 3 layers = true -> cr d <> []) ->
  draws (cr_marks te layers d)
    (if layer_in 3 layers then map rot (cr d) else [])
    (if layer_in 3 layers then
       map (fun r => (format_int (orig r) ++ "t")%string) (cr d)
     else []).
Proof.
  intros H. unfold cr_marks. destruct (layer_in 3 layers); [|apply draws_ret].
  destruct (cr d) as [|a l]; [exfalso; apply H; reflexivity|].
  eapply draws_eq.
  - apply draws_seq; [apply draws_scale_arc|].
    apply draws_seq; [apply draws_call; reflexivity|].
    apply (draws_for_rows _ (fun g => [rot g])
             (fun g => [(format_int (orig g) ++ "t")%string])).
    intros g. cbv beta. apply draws_mark, nonempty_app_r. reflexivity.
  - cbn [app]. apply flat_map_single.
  - cbn [app]. apply flat_map_single.
Qed.

Lemma draws_cg_marks layers d :
  (layer_in 2 layers = true -> cg d <> [] /\ refpt d <> None) ->
  draws (cg_marks te layers d)
    (if layer_in 2 layers then
       match refpt d with
       | Some a => a :: map rot (cg d)
       | None => []
       end
     else [])
    (if layer_in 2 layers then
       "CR"%string
       :: map (fun r => (format_int (orig r) ++ "t")%string) (cg d)
     else []).
Proof.
  intros H. unfold cg_marks. destruct (layer_in 2 layers); [|apply draws_ret].
  destruct (H eq_refl) as [Hl Hk].
  destruct (cg d) as [|a l]; [exfalso; apply Hl; reflexivity|].
  destruct (refpt d) as [x|]; [|exfalso; apply Hk; reflexivity].
  eapply draws_eq.
  - apply draws_seq; [apply draws_scale_arc|].
    apply draws_seq; [apply draws_call; reflexivity|].
    apply draws_key.
    apply draws_seq; [apply draws_mark; reflexivity|].
    apply (draws_for_rows _ (fun g => [rot g])
             (fun g => [(format_int (orig g) ++ "t")%string])).
    intros g. cbv beta. apply draws_mark, nonempty_app_r. reflexivity.
  - cbn [app]. f_equal; try apply flat_map_single.
  - cbn [app]. f_equal; try apply flat_map_single.
Qed.

Lemma draws_top_marks layers d :
  (layer_in 1 layers = true -> sprefpt d <> None /\ cd d <> []) ->
  draws (top_marks te layers d)
    (if layer_in 1 layers then
       match sprefpt d with
       | Some a => a :: a :: map rot (cd d)
       | None => []
       end
     else [])
    (if layer_in 1 layers then
       "GR"%string :: map format_int (multiples 5 (cd d))
     else []).
Proof.
  intros H. unfold top_marks. destruct (layer_in 1 layers); [|apply draws_ret].
  destruct (H eq_refl) as [Hk Hl].
  destruct (cd d) as [|a l]; [exfalso; apply Hl; reflexivity|].
  destruct (sprefpt d) as [x|]; [|exfalso; apply Hk; reflexivity].
  eapply draws_eq.
  - apply draws_key.
    apply draws_seq; [apply draws_mark; reflexivity|].
    apply draws_key.
    apply draws_seq; [apply draws_coverbox|].
    apply draws_seq; [apply draws_scale_arc|].
    apply (draws_for_rows _ (fun g => [rot g])
             (fun g => if (orig g mod 5 =? 0)%Z
                       then [format_int (orig g)] else [])).
    intros g. cbv beta. destruct (orig g mod 5 =? 0)%Z.
    + apply draws_mark, nonempty_format_int.
    + apply draws_tick.
  - cbn [app]. do 2 f_equal; try apply flat_map_single.
  - cbn [app]. f_equal. unfold multiples.
    apply (flat_map_pick (fun g => (orig g mod 5 =? 0)%Z) format_int).
Qed.

Lemma draws_km_marks layers d :
  (layer_in 3 layers = true -> km d <> []) ->
  draws (km_marks te layers d)
    (if layer_in 3 layers then map rot (km d) else [])
    (if layer_in 3 layers then map format_int (multiples 5 (km d)) else []).
Proof.
  intros H. unfold km_marks. destruct (layer_in 3 layers); [|apply draws_ret].
  destruct (km d) as [|a l]; [exfalso; apply H; reflexivity|].
  eapply draws_eq.
  - apply draws_seq; [apply draws_scale_arc|].
    apply (draws_for_rows _ (fun g => [rot g])
             (fun g => if (orig g mod 5 =? 0)%Z
                       then [format_int (orig g)] else [])).
    intros g. cbv beta. destruct (orig g mod 5 =? 0)%Z.
    + apply draws_mark, nonempty_format_int.
    + apply draws_tick.
  - cbn [app]. apply flat_map_single.
  - cbn [app]. unfold multiples.
    apply (flat_map_pick (fun g => (orig g mod 5 =? 0)%Z) format_int).
Qed.

Lemma draws_page_style : draws page_style [] [].
Proof. unfold page_style. plain. Qed.

Lemma draws_cuts layers : draws (cuts layers) [] [].
Proof. unfold cuts. plain. Qed.

Lemma draws_centrepoint : draws centrepoint [] [].
Proof. unfold centrepoint. plain. Qed.

Lemma draws_drawpage layers d :
  drawable layers d ->
  draws (drawpage te layers d) (marks layers d) (labels layers d).
Proof.
  intros (H3 & H2 & H1). unfold drawpage. eapply draws_eq.
  - apply draws_seq; [apply draws_page_style|].
    apply draws_seq; [apply draws_cuts|].
    apply draws_seq; [apply draws_centrepoint|].
    apply draws_seq; [apply draws_call; reflexivity|].
    apply draws_seq; [apply draws_gi_marks; intros E; apply H3, E|].
    apply draws_seq; [apply draws_cr_marks; intros E; apply H3, E|].
    apply draws_seq; [apply draws_cg_marks, H2|].
    apply draws_seq; [apply draws_call; reflexivity|].
    apply draws_seq; [apply draws_top_marks, H1|].
    apply draws_km_marks. intros E. apply H3, E.
  - unfold marks.
    destruct (layer_in 3 layers), (layer_in 2 layers), (layer_in 1 layers);
      cbn [app]; rewrite ?app_nil_r, <- ?app_assoc; reflexivity.
  - unfold labels.
    destruct (layer_in 3 layers), (layer_in 2 layers), (layer_in 1 layers);
      cbn [app]; rewrite ?app_nil_r, <- ?app_assoc; reflexivity.
Qed.

(** *** the calls before any scale *)

Lemma dbind_run {A B} (m : Draw A) (k : A -> Draw B) c c1 a :
  m c = (c1, Ok a) -> dbind m k c = k a c1.
Proof. intros H. unfold dbind. rewrite H. reflexivity. Qed.

Lemma dbind_assoc {A B C} (m : Draw A) (k0 : A -> Draw B)
  (k : B -> Draw C) c :
  dbind (dbind m k0) k c = dbind m (fun x => dbind (k0 x) k) c.
Proof.
  unfold dbind. destruct (m c) as [c1 [a|e]]; reflexivity.
Qed.

Lemma page_style_run c : page_style c = (c ++ style_calls, Ok tt).
Proof.
  unfold page_style, style_calls. cbv [dbind call].
  rewrite <- !app_assoc. reflexivity.
Qed.

Lemma cuts_run layers c : cuts layers c = (c ++ cut_calls layers, Ok tt).
Proof.
  unfold cuts, cut_calls.
  destruct (layer_in 2 layers), (layer_in 1 layers || layer_in 3 layers)%bool;
    cbv [dbind call dret]; rewrite <- ?app_assoc, ?app_nil_r; reflexivity.
Qed.

Lemma centrepoint_run c : centrepoint c = (c ++ centre_calls, Ok tt).
Proof.
  unfold centrepoint, centre_calls. cbv [dbind call].
  rewrite <- !app_assoc. reflexivity.
Qed.

Lemma drawpage_prefix layers d c :
  exists after,
    fst (drawpage te layers d c)
    = c ++ style_calls ++ cut_calls layers ++ centre_calls ++ after.
Proof.
  unfold drawpage.
  rewrite (dbind_run _ _ _ _ _ (page_style_run c)).
  rewrite (dbind_run _ _ _ _ _ (cuts_run layers _)).
  rewrite (dbind_run _ _ _ _ _ (centrepoint_run _)).
  destruct (neutral_marks_part layers d
              (((c ++ style_calls) ++ cut_calls layers) ++ centre_calls))
    as (ops & E & _).
  exists ops. rewrite E, <- !app_assoc. reflexivity.
Qed.

Lemma settled_drawpage layers d :
  drawable layers d -> settled (drawpage te layers d) (Ok tt).
Proof.
  intros H. destruct (checked_drawpage layers d) as (r & S & I & _).
  apply I in H. subst r. exact S.
Qed.

Lemma output_layers_returns layers d :
  drawable layers d ->
  exists c,
    output_layers te layers d
    = (Surface (mm2pt 100) (mm2pt 100) c true, Ok tt).
Proof.
  intros H. unfold output_layers.
  cbv zeta.
  match goal with
  | |- context [match ?m [] with _ => _ end] =>
      assert (S : settled m (Ok tt));
      [| specialize (S []); destruct (m []) as [c r]; cbn [snd] in S;
         subst r; exists c; reflexivity]
  end.
  apply (settled_seq _ _ (Ok tt) (Ok tt)); [apply settled_call|].
  apply (settled_seq _ _ (Ok tt) (Ok tt)); [apply settled_call|].
  apply (settled_seq _ _ (Ok tt) (Ok tt)); [apply settled_call|].
  apply settled_drawpage, H.
Qed.

Lemma rot_gi_first : rot (gi_mark 68) = 0.
Proof.
  cbn [rot gi_mark set_rot]. unfold gimin, girawmin.
  cbn [logval gi_built]. lra.
Qed.

Lemma rot_gi_final : rot (gi_mark 112) = 0.82 * PI.
Proof.
  pose proof gimod_span as S.
  unfold girangeraw, girawmax, girawmin, girangerad in S.
  cbn [rot gi_mark set_rot]. unfold gimin, girawmin.
  cbn [logval gi_built]. lra.
Qed.

Lemma scale_arc_zup radius (f : Z -> row) lo hi c :
  (lo <= hi)%Z ->
  scale_arc radius (map f (zup lo hi)) c
  = (c ++ [cairo.new_sub_path;
           cairo.arc 0.0 0.0 radius (rot (f lo)) (rot (f hi))], Ok tt).
Proof.
  intros H. unfold scale_arc, item, last_item.
  assert (E1 : nth_error (map f (zup lo hi)) 0 = Some (f lo)).
  { rewrite (zup_cons lo hi H). reflexivity. }
  assert (E2 : rev (map f (zup lo hi))
               = f hi :: rev (map f (zup lo (hi - 1)))).
  { rewrite (zup_snoc lo hi H), map_app, rev_app_distr. reflexivity. }
  rewrite E1, E2. cbv [dbind call dret].
  rewrite <- !app_assoc. reflexivity.
Qed.

(** X14. The main marker is the arc the gear inch scale spans: for every
    positive rollout, a drawing of layer 3 of what calculate returns holds
    the arc of radius 0.4 from angle 0 to angle 0.82 pi. *)
Theorem main_marker_arc g layers c :
  0 < TYRE_C g -> layer_in 3 layers = true ->
  exists d,
    calculate g = Ok (d, g) /\
    In (cairo.arc 0.0 0.0 0.4 0 (0.82 * PI)) (fst (drawpage te layers d c)).
Proof.
  intros Ht H3. exists (scales (TYRE_C g)).
  split; [apply calculate_returns, Ht|].
  unfold drawpage.
  rewrite (dbind_run _ _ _ _ _ (page_style_run c)).
  rewrite (dbind_run _ _ _ _ _ (cuts_run layers _)).
  rewrite (dbind_run _ _ _ _ _ (centrepoint_run _)).
  rewrite (dbind_run (call _) _ _ _ tt eq_refl).
  unfold gi_marks at 1. rewrite H3. cbv beta iota. cbn [gi scales].
  rewrite dbind_assoc.
  rewrite (dbind_run _ _ _ _ _
             (scale_arc_zup 0.4 gi_mark 68 112 _ ltac:(lia))).
  match goal with
  | |- In _ (fst (?m ?c0)) =>
      assert (N : neutral m);
      [| destruct (N c0) as (ops & E & _); rewrite E]
  end.
  - apply neutral_bind; [apply neutral_bind; [|intros _]|intros _].
    + apply neutral_call; discriminate.
    + apply neutral_for_rows. intros r.
      destruct (orig r mod 2 =? 0)%Z; apply neutral_scalemark.
    + unfold cr_marks, cg_marks, top_marks, km_marks, scale_arc.
      neutral_steps.
  - rewrite rot_gi_first, rot_gi_final.
    apply in_or_app. left. apply in_or_app. right. right. left. reflexivity.
Qed.


End DrawingFacts.

(** ** What drawpage does *)

Lemma scales_drawable t layers : drawable layers (scales t).
Proof.
  unfold drawable. cbn [gi cr cg km cd refpt sprefpt scales].
  rewrite (zup_cons 68 112), (zup_cons 42 52), (zdown_cons 18 12),
    (zup_cons 35 55), (zup_cons 80 150) by lia.
  repeat split; intros; discriminate.
Qed.

(** X6. Whatever the layers and the dictionary, and whether it returns or
    raises, drawpage only adds calls to the context, and the calls it adds
    restore every state they save: from any depth of saved states they never
    restore below it and end at it. *)
Theorem drawpage_balanced te layers d c :
  exists ops,
    fst (drawpage te layers d c) = c ++ ops /\
    forall k, nesting ops k = Some k.
Proof. apply (neutral_drawpage te layers d c). Qed.

(** X7. drawpage returns exactly when the dictionary holds what the layers
    asked for need: non-empty 'gi', 'cr' and 'km' lists for layer 3, a
    non-empty 'cg' list and 'refpt' for layer 2, 'sprefpt' and a non-empty
    'cd' list for layer 1.  Otherwise it raises IndexError or KeyError.
    Neither depends on what was drawn before or on the text extents. *)
Theorem drawpage_returns_iff te layers d c :
  (snd (drawpage te layers d c) = Ok tt <-> drawable layers d) /\
  (forall e, snd (drawpage te layers d c) = Raise e ->
             e = IndexError \/ e = KeyError).
Proof.
  destruct (checked_drawpage te layers d) as (r & S & I & E).
  rewrite (S c). split; [exact I | exact E].
Qed.

(** X8. What calculate returns can always be drawn: for every positive
    rollout and every choice of layers, drawpage returns on the dictionary
    calculate returned. *)
Theorem calculate_then_drawpage te g layers c :
  0 < TYRE_C g ->
  exists d, calculate g = Ok (d, g) /\ snd (drawpage te layers d c) = Ok tt.
Proof.
  intros Ht. exists (scales (TYRE_C g)).
  split; [apply calculate_returns, Ht|].
  apply settled_drawpage, scales_drawable.
Qed.

Lemma calculate_then_drawpage_witness :
  exists d,
    calculate module_globals = Ok (d, module_globals) /\
    snd (drawpage no_extents [1; 2; 3]%Z d []) = Ok tt.
Proof.
  apply (calculate_then_drawpage no_extents module_globals).
  cbn [TYRE_C module_globals]. lra.
Defined.

(** X9. The three discs carry between them the marks of the combined
    drawing: when the combined drawing can be drawn, its rotate() angles are
    those of the drawings of layer 1, layer 2 and layer 3 taken together,
    each as often. *)
Theorem marks_on_one_layer te d :
  drawable [1; 2; 3]%Z d ->
  Permutation
    (rotations (fst (drawpage te [1; 2; 3]%Z d [])))
    (rotations (fst (drawpage te [1]%Z d []))
     ++ rotations (fst (drawpage te [2]%Z d []))
     ++ rotations (fst (drawpage te [3]%Z d []))).
Proof.
  intros H. destruct H as (H3 & H2 & H1).
  assert (D1 : drawable [1]%Z d).
  { split; [intros E; discriminate|].
    split; [intros E; discriminate | intros _; apply H1; reflexivity]. }
  assert (D2 : drawable [2]%Z d).
  { split; [intros E; discriminate|].
    split; [intros _; apply H2; reflexivity | intros E; discriminate]. }
  assert (D3 : drawable [3]%Z d).
  { split; [intros _; apply H3; reflexivity|].
    split; intros E; discriminate. }
  assert (D : drawable [1; 2; 3]%Z d) by (split; [|split]; assumption).
  destruct (draws_drawpage te _ d D) as [_ S].
  destruct (draws_drawpage te _ d D1) as [_ S1].
  destruct (draws_drawpage te _ d D2) as [_ S2].
  destruct (draws_drawpage te _ d D3) as [_ S3].
  rewrite (proj1 (S [])), (proj1 (S1 [])), (proj1 (S2 [])), (proj1 (S3 [])).
  unfold marks. cbn [layer_in existsb Z.eqb Pos.eqb orb rotations flat_map app].
  rewrite ?app_nil_r.
  set (A := map rot (gi d) ++ map rot (cr d)).
  set (B := match refpt d with Some a => a :: map rot (cg d) | None => [] end).
  set (T := match sprefpt d with
            | Some a => a :: a :: map rot (cd d)
            | None => []
            end).
  set (K := map rot (km d)).
  apply Permutation_trans with (B ++ A ++ T ++ K);
    [apply Permutation_app_swap_app|].
  apply Permutation_trans with (B ++ T ++ A ++ K);
    [apply Permutation_app_head, Permutation_app_swap_app|].
  apply Permutation_app_swap_app.
Qed.

Lemma marks_on_one_layer_witness :
  Permutation
    (rotations (fst (drawpage no_extents [1; 2; 3]%Z (scales 2.090) [])))
    (rotations (fst (drawpage no_extents [1]%Z (scales 2.090) []))
     ++ rotations (fst (drawpage no_extents [2]%Z (scales 2.090) []))
     ++ rotations (fst (drawpage no_extents [3]%Z (scales 2.090) []))).
Proof. apply marks_on_one_layer, scales_drawable. Defined.

(** X10. The texts drawpage shows, in order, when the dictionary can be
    drawn: on layer 3 the even gear inch values followed by a double quote
    and every chainring followed by t; on layer 2 CR and every cog followed
    by t; on layer 1 GR and the cadences that are multiples of 5; on layer 3
    again the speeds that are multiples of 5.  Every other mark is a tick
    without text. *)
Theorem drawpage_texts te layers d c :
  drawable layers d ->
  texts (fst (drawpage te layers d c)) = texts c ++ labels layers d.
Proof.
  intros H. destruct (draws_drawpage te layers d H) as [_ S].
  apply (proj2 (S c)).
Qed.

Lemma drawpage_texts_witness :
  texts (fst (drawpage no_extents [2]%Z (scales 2.090) []))
  = ["CR"; "18t"; "17t"; "16t"; "15t"; "14t"; "13t"; "12t"]%string.
Proof.
  rewrite (drawpage_texts no_extents [2]%Z (scales 2.090) []
             (scales_drawable _ _)).
  reflexivity.
Defined.

(** X11. The centrepoint is always drawn: whatever the layers and the
    dictionary, and also when a scale raises later, the calls drawpage adds
    begin with the five style calls, the cut circles of the layers and the
    seven calls of the centre circle and cross. *)
Theorem centrepoint_always_drawn te layers d c :
  exists after,
    fst (drawpage te layers d c)
    = c ++ style_calls ++ cut_calls layers ++ centre_calls ++ after.
Proof. apply drawpage_prefix. Qed.

(** ** The program *)

Lemma append_cancel (p a b : string) :
  (p ++ a)%string = (p ++ b)%string -> a = b.
Proof.
  induction p as [|ch p IH]; intros H; [exact H|].
  cbn [append] in H. injection H as H. apply IH, H.
Qed.

(** X12. For every positive rollout and every prefix the program writes
    four finished surfaces of 100 mm by 100 mm, in the order combined, base,
    middle, top, under four different file names. *)
Theorem main_writes_four te g :
  0 < TYRE_C g ->
  exists s1 s2 s3 s4,
    main te g
    = ([((FILEPFX g ++ "_combined.pdf")%string, s1);
        ((FILEPFX g ++ "_base.pdf")%string, s2);
        ((FILEPFX g ++ "_middle.pdf")%string, s3);
        ((FILEPFX g ++ "_top.pdf")%string, s4)], Ok tt) /\
    Forall (fun s => finished s = true /\
                     width_pt s = mm2pt 100 /\ height_pt s = mm2pt 100)
      [s1; s2; s3; s4] /\
    NoDup [(FILEPFX g ++ "_combined.pdf")%string;
           (FILEPFX g ++ "_base.pdf")%string;
           (FILEPFX g ++ "_middle.pdf")%string;
           (FILEPFX g ++ "_top.pdf")%string].
Proof.
  intros Ht. unfold main, write_layers.
  rewrite (calculate_returns g Ht).
  destruct (output_layers_returns te [1; 2; 3]%Z (scales (TYRE_C g))
              (scales_drawable _ _)) as [c1 ->].
  destruct (output_layers_returns te [3]%Z (scales (TYRE_C g))
              (scales_drawable _ _)) as [c2 ->].
  destruct (output_layers_returns te [2]%Z (scales (TYRE_C g))
              (scales_drawable _ _)) as [c3 ->].
  destruct (output_layers_returns te [1]%Z (scales (TYRE_C g))
              (scales_drawable _ _)) as [c4 ->].
  do 4 eexists. split; [reflexivity|]. split.
  - repeat constructor.
  - repeat constructor; cbn [In]; intros H;
      repeat (destruct H as [H|H]; [apply append_cancel in H; discriminate|]);
      exact H.
Qed.

Lemma main_writes_four_witness :
  exists s1 s2 s3 s4,
    main no_extents module_globals
    = ([((FILEPFX module_globals ++ "_combined.pdf")%string, s1);
        ((FILEPFX module_globals ++ "_base.pdf")%string, s2);
        ((FILEPFX module_globals ++ "_middle.pdf")%string, s3);
        ((FILEPFX module_globals ++ "_top.pdf")%string, s4)], Ok tt) /\
    Forall (fun s => finished s = true /\
                     width_pt s = mm2pt 100 /\ height_pt s = mm2pt 100)
      [s1; s2; s3; s4] /\
    NoDup [(FILEPFX module_globals ++ "_combined.pdf")%string;
           (FILEPFX module_globals ++ "_base.pdf")%string;
           (FILEPFX module_globals ++ "_middle.pdf")%string;
           (FILEPFX module_globals ++ "_top.pdf")%string].
Proof.
  apply (main_writes_four no_extents module_globals).
  cbn [TYRE_C module_globals]. lra.
Defined.

(** X13. With a rollout that is not positive the program writes no file:
    calculate raises, ZeroDivisionError for zero and ValueError below, before
    any file is opened. *)
Theorem main_writes_nothing te g :
  TYRE_C g <= 0 ->
  exists e,
    main te g = ([], Raise e) /\
    (e = ZeroDivisionError \/ e = ValueError).
Proof.
  intros [Hlt|Heq]; unfold main.
  - exists ValueError.
    rewrite (calculate_stops_at_speed g ValueError
               (km_row_negative 35 g ltac:(lia) Hlt)).
    split; [reflexivity | right; reflexivity].
  - exists ZeroDivisionError.
    rewrite (calculate_stops_at_speed g ZeroDivisionError
               (km_row_zero 35 g Heq)).
    split; [reflexivity | left; reflexivity].
Qed.

Lemma main_writes_nothing_witness :
  exists e,
    main no_extents (Globals 0 "gcswheel") = ([], Raise e) /\
    (e = ZeroDivisionError \/ e = ValueError).
Proof.
  apply (main_writes_nothing no_extents (Globals 0 "gcswheel")).
  cbn [TYRE_C]. lra.
Defined.

Lemma main_marker_arc_witness :
  exists d,
    calculate module_globals = Ok (d, module_globals) /\
    In (cairo.arc 0.0 0.0 0.4 0 (0.82 * PI))
       (fst (drawpage no_extents [3]%Z d [])).
Proof.
  apply (main_marker_arc no_extents module_globals [3]%Z []);
    [cbn [TYRE_C module_globals]; lra | reflexivity].
Defined.
